(** * Weighted Max-Cut graph of the QAOA notebook

    A shallow embedding of the [Graph] class and of the objective function
    [get_expectation] of [report-checkpoint.ipynb], together with the
    properties of exact scoring, brute-force optimum and best-found tracking.

    Conventions of the embedding:
    - vertices, weights and counts are Python integers, modelled by [Z];
    - [self.adj] is a dictionary of dictionaries, modelled by
      [gmap Z (gmap Z Z)]; the map does not record the insertion order of the
      dictionary. The traversals of [get_score] and [edges_cut] only sum
      integers or raise the same exception, so that order is irrelevant to
      them; the list of [get_edges] is known up to its order only, and what
      is stated about it and about the adjacency itself is stated in terms of
      membership, sums, counts and lookups;
    - a candidate solution is any Python sequence (a [str] of '0'/'1'
      characters, or a list); it is modelled by [list A] for an element type
      with decidable equality, [A := ascii] for strings;
    - [float('-inf')] lives in [best_t];
    - floating-point values (gamma, beta, probabilities, expectations) belong
      to an abstract type [R] with the arithmetic operations of [FloatOps];
      nothing is assumed about these operations, which never raise (they
      yield infinities and NaN); the conversion of an integer to a float
      raises [OverflowError] outside the range of the doubles;
    - methods are actions of the monad [M]: they read and write [self] and may
      raise; a raised exception keeps the mutations made before it. *)

From Stdlib Require Import ZArith Ascii String QArith.
From stdpp Require Import base numbers list gmap.

Local Open Scope Z_scope.

(** ** Exceptions and results *)

Inductive exn : Type :=
| AssertionError
| IndexError
| KeyError
| OverflowError
| ZeroDivisionError.

Inductive result (A : Type) : Type :=
| Ok (a : A)
| Raise (e : exn).
Arguments Ok {A} a.
Arguments Raise {A} e.

(** [float('-inf')] or an integer score. *)
Inductive best_t : Type :=
| NegInf
| Score (z : Z).

(** [score > self.currentScore] *)
Definition exceeds (score : Z) (current : best_t) : bool :=
  match current with
  | NegInf => true
  | Score c => c <? score
  end.

(** The order of these values. *)
Definition best_le (a b : best_t) : Prop :=
  match a, b with
  | NegInf, _ => True
  | Score x, Score y => x ≤ y
  | Score _, NegInf => False
  end.

(** Arithmetic of the floating-point values. *)
Class FloatOps (R : Type) : Type := {
  of_int : Z → R;
  fadd : R → R → R;
  fmul : R → R → R;
  fdiv : R → R → R
}.

(** The integers that convert to a float: those that round to a finite
    double. The largest double is [2 ^ 1024 - 2 ^ 971]. *)
Definition in_float_range (i : Z) : bool := Z.abs i <? 2 ^ 1024 - 2 ^ 970.
Arguments in_float_range : simpl never.

(** [float(i)], also where an integer operand meets a float in [+], [*] or
    [/]: "OverflowError: int too large to convert to float". *)
Definition to_float {R : Type} `{FloatOps R} (i : Z) : result R :=
  if in_float_range i then Ok (of_int i) else Raise OverflowError.

(** ** Python sequences *)

(** [s[i]]: a negative index counts from the end. *)
Definition getitem {A} (s : list A) (i : Z) : result A :=
  let n := Z.of_nat (length s) in
  let j := if i <? 0 then i + n else i in
  if (0 <=? j) && (j <? n)
  then match s !! Z.to_nat j with Some a => Ok a | None => Raise IndexError end
  else Raise IndexError.

(** [bin(i)[2:]] for [0 <= i]: the binary digits, most significant first. *)
Fixpoint bin_pos (p : positive) (acc : list ascii) : list ascii :=
  match p with
  | xH => "1"%char :: acc
  | xO p' => bin_pos p' ("0"%char :: acc)
  | xI p' => bin_pos p' ("1"%char :: acc)
  end.

Definition bin (i : Z) : list ascii :=
  match i with
  | Zpos p => bin_pos p []
  | _ => ["0"%char]
  end.

(** [(n - len(bitstring)) * "0" + bitstring]: a negative repetition count
    yields the empty string. *)
Definition zero_pad (n : nat) (bitstring : list ascii) : list ascii :=
  replicate (n - length bitstring)%nat "0"%char ++ bitstring.

(** [ceil((2 ** n)/2)]: the quotient is a float, which overflows from
    [2 ** 1025] on; below that it is exact. *)
Definition ceil_half_pow2 (n : nat) : result Z :=
  if (1024 <? Z.of_nat n) then Raise OverflowError
  else Ok ((2 ^ Z.of_nat n + 1) `div` 2).

(** ** The graph object *)

Section Graph.
Context {R : Type} `{FloatOps R}.

Record Graph : Type := mkGraph {
  N : nat;
  E : Z;
  adj : gmap Z (gmap Z Z);
  currentScore : best_t;
  currentBest : list ascii;
  runs : list (R * R * R)
}.

Definition set_E (e : Z) (g : Graph) : Graph :=
  mkGraph (N g) e (adj g) (currentScore g) (currentBest g) (runs g).
Definition set_adj (a : gmap Z (gmap Z Z)) (g : Graph) : Graph :=
  mkGraph (N g) (E g) a (currentScore g) (currentBest g) (runs g).
Definition set_currentScore (s : best_t) (g : Graph) : Graph :=
  mkGraph (N g) (E g) (adj g) s (currentBest g) (runs g).
Definition set_currentBest (b : list ascii) (g : Graph) : Graph :=
  mkGraph (N g) (E g) (adj g) (currentScore g) b (runs g).
Definition set_runs (r : list (R * R * R)) (g : Graph) : Graph :=
  mkGraph (N g) (E g) (adj g) (currentScore g) (currentBest g) r.

(** ** Methods as state-and-exception actions *)

Definition M (A : Type) : Type := Graph → result A * Graph.

Definition ret {A} (a : A) : M A := λ self, (Ok a, self).
Definition bind {A B} (m : M A) (k : A → M B) : M B :=
  λ self,
    match m self with
    | (Ok a, self') => k a self'
    | (Raise e, self') => (Raise e, self')
    end.
Definition raise {A} (e : exn) : M A := λ self, (Raise e, self).
Definition get : M Graph := λ self, (Ok self, self).
Definition modify (f : Graph → Graph) : M unit := λ self, (Ok tt, f self).
Definition lift {A} (r : result A) : M A := λ self, (r, self).

#[global] Instance M_ret : MRet M := @ret.
#[global] Instance M_bind : MBind M := λ A B k m, bind m k.

(** [for x in l: body], threading the local variables [s] of the loop. *)
Fixpoint for_each {A S} (l : list A) (body : A → S → M S) (s : S) : M S :=
  match l with
  | [] => ret s
  | x :: l' => s' ← body x s; for_each l' body s'
  end.

(** [Graph(N, randomize=False)]; with [randomize=True] the constructor goes
    on with [add_edge] calls on randomly chosen pairs of distinct vertices. *)
Definition Graph_init (n : nat) : Graph :=
  mkGraph n 0 (list_to_map ((λ i, (i, ∅)) <$> seqZ 0 (Z.of_nat n))) NegInf [] [].

(** [add_edge(self, u, v, weight)] *)
Definition add_edge (u v weight : Z) : M unit :=
  modify (λ self, set_E (E self + 1) self);;
  self ← get;
  match adj self !! u with
  | None => raise KeyError
  | Some row => modify (set_adj (<[u := <[v := weight]> row]> (adj self)))
  end.

(** [get_edges(self)]; the edges come in the order of the model's map, not
    in the insertion order of the Python dictionary. *)
Definition get_edges : M (list (Z * Z * Z)) :=
  self ← get;
  for_each (map_to_list (adj self)) (λ '(u, row) edges,
    for_each (map_to_list row) (λ '(v, w) edges,
      ret (edges ++ [(u, v, w)])) edges) [].

Section Scoring.
Context {A : Type} `{EqDecision A}.

(** [get_score(self, bitstring)] *)
Definition get_score (bitstring : list A) : M Z :=
  self ← get;
  if negb (Nat.eqb (length bitstring) (N self)) then raise AssertionError else
  for_each (map_to_list (adj self)) (λ '(u, row) score,
    for_each (map_to_list row) (λ '(v, w) score,
      bu ← lift (getitem bitstring u);
      bv ← lift (getitem bitstring v);
      if bool_decide (bu ≠ bv) then ret (score + w) else ret score) score) 0.

(** [edges_cut(self, bitstring)] *)
Definition edges_cut (bitstring : list A) : M Z :=
  self ← get;
  for_each (map_to_list (adj self)) (λ '(u, row) num,
    for_each (map_to_list row) (λ '(v, w) num,
      bu ← lift (getitem bitstring u);
      bv ← lift (getitem bitstring v);
      if bool_decide (bu ≠ bv) then ret (num + 1) else ret num) num) 0.

End Scoring.

(** [optimal_score(self)] *)
Definition optimal_score : M (Z * list (list ascii)) :=
  self ← get;
  n ← lift (ceil_half_pow2 (N self));
  for_each (seqZ 0 n) (λ i '(best, best_val),
    self ← get;
    let bitstring := bin i in
    let bitstring := zero_pad (N self) bitstring in
    sc ← get_score bitstring;
    if best <? sc then ret (sc, [bitstring])
    else if sc =? best then ret (best, best_val ++ [bitstring])
    else ret (best, best_val)) (0, []).

(** [update_score(self, bitstring)] *)
Definition update_score (bitstring : list ascii) : M Z :=
  score ← get_score bitstring;
  self ← get;
  (if exceeds score (currentScore self)
   then modify (set_currentScore (Score score));;
        modify (set_currentBest bitstring)
   else ret tt);;
  ret score.

(** [clear_runs(self)] *)
Definition clear_runs : M unit :=
  modify (set_currentScore NegInf);;
  modify (set_currentBest []);;
  modify (set_runs []).

(** [add_run(self, gamma, beta, expected_value)] *)
Definition add_run (gamma beta expected_value : R) : M unit :=
  modify (λ self, set_runs (runs self ++ [(gamma, beta, expected_value)]) self).

(** [get_expectation(x, g, NUM_SHOTS)]. The circuit is built from [g.N] and
    [g.get_edges()] and run by the simulator, which are not modelled:
    [result_dict] is the dictionary of counts that the simulator has
    returned, in its iteration order, and the model is that of the code from
    there on. In [np.float(count) / NUM_SHOTS] both integers are converted
    before the divisor is tested for zero, and in [score * prob] the integer
    score is converted after [update_score] has returned. *)
Definition get_expectation (x : R * R) (result_dict : list (list ascii * Z))
    (NUM_SHOTS : Z) : M R :=
  let '(gamma, beta) := x in
  _ ← get_edges;
  exp ← for_each result_dict (λ '(bitstring, count) exp,
    count ← lift (to_float count);
    shots ← lift (to_float NUM_SHOTS);
    prob ← (if NUM_SHOTS =? 0 then raise ZeroDivisionError
            else ret (fdiv count shots));
    score ← update_score bitstring;
    score ← lift (to_float score);
    ret (fadd exp (fmul score prob))) (of_int 0);
  add_run gamma beta exp;;
  ret exp.

(** [sk_get_exp = lambda x: -1*get_expectation(x, inst)] *)
Definition sk_get_exp (x : R * R) (result_dict : list (list ascii * Z)) : M R :=
  e ← get_expectation x result_dict 1024;
  ret (fmul (of_int (-1)) e).

(** ** Notions used to state the properties *)

(** The value returned by [get_score] on [g] ([0] when it raises). *)
Definition score_of {A : Type} `{EqDecision A} (g : Graph) (b : list A) : Z :=
  match (get_score b g).1 with
  | Ok s => s
  | Raise _ => 0
  end.

(** [i] is an index of a sequence of length [n]. *)
Definition in_range (n : nat) (i : Z) : bool :=
  (- Z.of_nat n <=? i) && (i <? Z.of_nat n).

(** Both endpoints of every stored edge index a sequence of length [N]; this
    holds in particular when all of them are vertices in [[0, N)]. *)
Definition indexable (g : Graph) : bool :=
  forallb (λ '(u, row),
    forallb (λ '(v, _), in_range (N g) u && in_range (N g) v) (map_to_list row))
    (map_to_list (adj g)).

(** The number of entries of all the neighbour maps. *)
Definition entry_count (g : Graph) : Z :=
  Z.of_nat (sum_list (size <$> (map_to_list (adj g)).*2)).

(** The best-found tracker is in the state in which [__init__] and
    [clear_runs] leave it. *)
Definition tracker_reset (g : Graph) : Prop :=
  currentScore g = NegInf ∧ currentBest g = [] ∧ runs g = [].

(** Two graphs have the same vertices and the same weighted edges. *)
Definition same_topology (g g' : Graph) : Prop :=
  N g = N g' ∧ adj g = adj g'.

(** Two graphs differ at most in the edge counter. *)
Definition agree (g g' : Graph) : Prop :=
  same_topology g g' ∧ currentScore g = currentScore g' ∧
  currentBest g = currentBest g' ∧ runs g = runs g'.


(** A sequence of [update_score] calls, with the values they return. *)
Fixpoint update_score_seq (bs : list (list ascii)) : M (list Z) :=
  match bs with
  | [] => mret []
  | b :: bs' => s ← update_score b; r ← update_score_seq bs'; mret (s :: r)
  end.

(** The calls made on a graph during optimisation, and what a caller sees
    after each of them: the outcome of the call and the tracker. *)
Inductive call : Type :=
| UpdateScore (bitstring : list ascii)
| AddRun (gamma beta expected_value : R)
| GetExpectation (x : R * R) (result_dict : list (list ascii * Z)) (NUM_SHOTS : Z).

Inductive value : Type :=
| VNone
| VInt (z : Z)
| VFloat (r : R).

Definition perform (c : call) : M value :=
  match c with
  | UpdateScore b => s ← update_score b; mret (VInt s)
  | AddRun gamma beta e => add_run gamma beta e;; mret VNone
  | GetExpectation x d n => e ← get_expectation x d n; mret (VFloat e)
  end.

Definition observation : Type :=
  result value * best_t * list ascii * list (R * R * R).

Fixpoint trajectory (cs : list call) (g : Graph) : list observation :=
  match cs with
  | [] => []
  | c :: cs' =>
      let '(r, g') := perform c g in
      (r, currentScore g', currentBest g', runs g') :: trajectory cs' g'
  end.

End Graph.

Arguments Graph R : clear implicits.
Arguments M R A : clear implicits.

(** ** The outcome of [get_score] as a function of the topology *)

(** A loop whose body only computes or raises. *)
Fixpoint fold_result {A S} (f : A → S → result S) (l : list A) (s : S) : result S :=
  match l with
  | [] => Ok s
  | x :: l' =>
      match f x s with
      | Ok s' => fold_result f l' s'
      | Raise e => Raise e
      end
  end.

Definition cut_step {A} `{EqDecision A} (b : list A) (u : Z)
    (e : Z * Z) (score : Z) : result Z :=
  match getitem b u with
  | Raise x => Raise x
  | Ok bu =>
      match getitem b e.1 with
      | Raise x => Raise x
      | Ok bv => Ok (if bool_decide (bu ≠ bv) then score + e.2 else score)
      end
  end.

Definition cut_result {A} `{EqDecision A} (n : nat) (a : gmap Z (gmap Z Z))
    (b : list A) : result Z :=
  if negb (Nat.eqb (length b) n) then Raise AssertionError
  else fold_result (λ r score, fold_result (cut_step b r.1) (map_to_list r.2) score)
         (map_to_list a) 0.

(** ** Bitstrings *)

Definition is_bit (c : ascii) : bool :=
  bool_decide (c = "0"%char) || bool_decide (c = "1"%char).

Definition is_bits (b : list ascii) : bool := forallb is_bit b.

Definition flip_bit (c : ascii) : ascii :=
  if bool_decide (c = "0"%char) then "1"%char
  else if bool_decide (c = "1"%char) then "0"%char
  else c.

(** The bitwise complement of a bitstring. *)
Definition complement (b : list ascii) : list ascii := flip_bit <$> b.

(** The number that a bitstring denotes in binary. *)
Fixpoint bits_value (b : list ascii) : Z :=
  match b with
  | [] => 0
  | c :: b' =>
      (if bool_decide (c = "1"%char) then 2 ^ Z.of_nat (length b') else 0)
      + bits_value b'
  end.

(** The candidates that [optimal_score] examines on [n] vertices. *)
Definition examined (n : nat) : list (list ascii) :=
  (λ i, zero_pad n (bin i)) <$> seqZ 0 ((2 ^ Z.of_nat n + 1) `div` 2).

(** One iteration of the loop of [optimal_score], on a candidate that
    [get_score] accepts. *)
Definition opt_step {R : Type} (g : Graph R) (st : Z * list (list ascii))
    (b : list ascii) : Z * list (list ascii) :=
  let sc := score_of g b in
  if st.1 <? sc then (sc, [b])
  else if sc =? st.1 then (st.1, st.2 ++ [b])
  else st.

(** ** Concrete instances *)

(** Exact rational arithmetic, to run the objective on concrete inputs. *)
#[global] Instance Q_ops : FloatOps Q :=
  {| of_int := inject_Z; fadd := Qplus; fmul := Qmult; fdiv := Qdiv |}.

Definition str (s : string) : list ascii := list_ascii_of_string s.

(** The graph on 3 vertices with the edges (0,1) of weight 5 and (1,2) of
    weight 3. *)
Definition path3 : Graph Q :=
  ((add_edge 0 1 5;; add_edge 1 2 3) (Graph_init 3)).2.

(** Some calls, the last of which raises. *)
Definition replay_calls : list (@call Q) :=
  [UpdateScore (str "001");
   GetExpectation (1%Q, 2%Q) [(str "011", 512); (str "010", 512)] 1024;
   AddRun 0%Q 0%Q 1%Q;
   UpdateScore (str "01")].

(** The same edges, with the weight of (0,1) set twice, after an evaluation. *)
Definition used3 : Graph Q :=
  ((add_edge 0 1 7;; add_edge 0 1 5;; add_edge 1 2 3;;
    sk_get_exp (1 # 2, 1 # 3)%Q [(str "010", 1000); (str "111", 24)])
     (Graph_init 3)).2.

(** ** Edges, counts and sequences of calls *)

(** The triples that the two nested loops over [adj] visit. *)
Definition edge_list (a : gmap Z (gmap Z Z)) : list (Z * Z * Z) :=
  r ← map_to_list a; (λ e : Z * Z, (r.1, e.1, e.2)) <$> map_to_list r.2.

(** [adj[u][v]], when both keys are there. *)
Definition weight_of (a : gmap Z (gmap Z Z)) (u v : Z) : option Z :=
  a !! u ≫= (λ row, row !! v).

(** [bitstring[u] != bitstring[v]], when both items are there. *)
Definition crosses {A} `{EqDecision A} (b : list A) (u v : Z) : bool :=
  match getitem b u, getitem b v with
  | Ok bu, Ok bv => bool_decide (bu ≠ bv)
  | _, _ => false
  end.

(** What an edge adds to the score of [b]. *)
Definition cut_weight {A} `{EqDecision A} (b : list A) (e : Z * Z * Z) : Z :=
  if crosses b e.1.1 e.1.2 then e.2 else 0.

Definition sum_Z (l : list Z) : Z := foldr Z.add 0 l.

(** Every stored weight passes the test [P]. *)
Definition all_weights {R : Type} (P : Z → bool) (g : Graph R) : bool :=
  forallb (λ r : Z * gmap Z Z, forallb (λ e : Z * Z, P e.2) (map_to_list r.2))
    (map_to_list (adj g)).

(** The outcome of [edges_cut] as a function of the topology. *)
Definition count_step {A} `{EqDecision A} (b : list A) (u : Z)
    (e : Z * Z) (num : Z) : result Z :=
  match getitem b u with
  | Raise x => Raise x
  | Ok bu =>
      match getitem b e.1 with
      | Raise x => Raise x
      | Ok bv => Ok (if bool_decide (bu ≠ bv) then num + 1 else num)
      end
  end.

Definition count_result {A} `{EqDecision A} (a : gmap Z (gmap Z Z))
    (b : list A) : result Z :=
  fold_result (λ r num, fold_result (count_step b r.1) (map_to_list r.2) num)
    (map_to_list a) 0.

(** The body of the loop of [get_expectation]. *)
Definition expectation_step {R : Type} `{FloatOps R} (NUM_SHOTS : Z)
    : list ascii * Z → R → M R R :=
  λ '(bitstring, count) exp,
    count ← lift (to_float count);
    shots ← lift (to_float NUM_SHOTS);
    prob ← (if NUM_SHOTS =? 0 then raise ZeroDivisionError
            else ret (fdiv count shots));
    score ← update_score bitstring;
    score ← lift (to_float score);
    ret (fadd exp (fmul score prob)).

(** The counts of [result_dict] and the scores of its bitstrings on [g]
    convert to floats. *)
Definition convertible {R : Type} (g : Graph R)
    (result_dict : list (list ascii * Z)) : bool :=
  forallb (λ o : list ascii * Z,
    in_float_range o.2 && in_float_range (score_of g o.1)) result_dict.

(** Two graphs with the same attributes, the same rows and the same weight
    for every ordered pair: they differ at most in the insertion order of
    their dictionaries. *)
Definition same_entries {R : Type} (g g' : Graph R) : Prop :=
  N g = N g' ∧ E g = E g' ∧ currentScore g = currentScore g' ∧
  currentBest g = currentBest g' ∧ runs g = runs g' ∧
  (∀ u, is_Some (adj g !! u) ↔ is_Some (adj g' !! u)) ∧
  (∀ u v, weight_of (adj g) u v = weight_of (adj g') u v).

(** The bitstrings that a call passes to [update_score]. *)
Definition call_strings {R : Type} (c : @call R) : list (list ascii) :=
  match c with
  | UpdateScore b => [b]
  | AddRun _ _ _ => []
  | GetExpectation _ d _ => d.*1
  end.

(** On the topology of [g0], [currentScore] is negative infinity or the
    score of a bitstring of '0' and '1' characters, one per vertex. *)
Definition scored_by_bits {R : Type} (g0 g : Graph R) : Prop :=
  N g = N g0 ∧ adj g = adj g0 ∧
  (currentScore g = NegInf ∨
   ∃ b, length b = N g0 ∧ is_bits b = true ∧
        currentScore g = Score (score_of g0 b)).

(** The tracker after [update_score] on a bitstring that [get_score] accepts. *)
Definition track {R : Type} (g : Graph R) (st : best_t * list ascii)
    (b : list ascii) : best_t * list ascii :=
  if exceeds (score_of g b) st.1 then (Score (score_of g b), b) else st.

(** The graph after a sequence of calls, some of which may raise. *)
Definition after_calls {R : Type} `{FloatOps R} (cs : list call) (g : Graph R)
    : Graph R :=
  foldl (λ g c, (perform c g).2) g cs.

(** What the calls of an evaluation may change: the tracker only grows. *)
Definition extends {R : Type} (g g' : Graph R) : Prop :=
  N g' = N g ∧ E g' = E g ∧ adj g' = adj g ∧
  best_le (currentScore g) (currentScore g') ∧
  (currentScore g' = currentScore g → currentBest g' = currentBest g) ∧
  runs g `prefix_of` runs g'.

(** The bitstring of length [n] that puts the vertex [u] alone on its side. *)
Definition one_hot (n : nat) (u : Z) : list ascii :=
  <[Z.to_nat u := "1"%char]> (replicate n "0"%char).

(** Both endpoints of every stored edge index a sequence of length [n]. *)
Definition fits (n : nat) (a : gmap Z (gmap Z Z)) : bool :=
  forallb (λ '(u, row),
    forallb (λ '(v, _), in_range n u && in_range n v) (map_to_list row))
    (map_to_list a).


(** The graph on 3 vertices with the edges (0,1), (1,2) and (2,0) of weight 1. *)
Definition triangle : Graph Q :=
  ((add_edge 0 1 1;; add_edge 1 2 1;; add_edge 2 0 1) (Graph_init 3)).2.

(** ** The random constructor *)

(** [ValueError], which the [random] module raises, besides the exceptions
    above. *)
Inductive random_exn : Type := ValueError.

(** [[(x,y) for x in range(n) for y in range(n) if x != y]] *)
Definition all_pairs (n : nat) : list (Z * Z) :=
  x ← seqZ 0 (Z.of_nat n); y ← seqZ 0 (Z.of_nat n);
  if decide (x ≠ y) then [(x, y)] else [].

Section Random.
Context {R : Type}.

(** Actions that may also raise [ValueError]. The random numbers are given:
    [rnd k] is the k-th number that the generator yields. *)
Definition MR (A : Type) : Type := Graph R → (random_exn + result A) * Graph R.

Definition retR {A} (a : A) : MR A := λ self, (inr (Ok a), self).
Definition bindR {A B} (m : MR A) (k : A → MR B) : MR B :=
  λ self,
    match m self with
    | (inr (Ok a), self') => k a self'
    | (inr (Raise e), self') => (inr (Raise e), self')
    | (inl e, self') => (inl e, self')
    end.
Definition liftM {A} (m : M R A) : MR A := λ self, let '(r, self') := m self in (inr r, self').

#[global] Instance MR_ret : MRet MR := @retR.
#[global] Instance MR_bind : MBind MR := λ A B k m, bindR m k.

Fixpoint for_each_R {A S} (l : list A) (body : A → S → MR S) (s : S) : MR S :=
  match l with
  | [] => mret s
  | x :: l' => s' ← body x s; for_each_R l' body s'
  end.

(** [random.randint(a, b)]: an integer of [[a, b]], [ValueError] when the
    range is empty. *)
Definition randint (a b : Z) (draw : nat) : MR Z :=
  λ self,
    if b <? a then (inl ValueError, self)
    else (inr (Ok (a + Z.of_nat draw `mod` (b - a + 1))), self).

(** [random.choice(seq)]: an item of [seq], [IndexError] when it is empty. *)
Definition choice {A} (seq : list A) (draw : nat) : MR A :=
  λ self,
    match seq !! (draw `mod` length seq)%nat with
    | Some x => (inr (Ok x), self)
    | None => (inr (Raise IndexError), self)
    end.

(** [s.remove(e)] on a set: [KeyError] when [e] is not in it. *)
Definition set_remove (e : Z * Z) (s : gset (Z * Z)) : MR (gset (Z * Z)) :=
  λ self,
    if decide (e ∈ s) then (inr (Ok (s ∖ {[e]})), self)
    else (inr (Raise KeyError), self).

(** [randomize(self)]. The set of pairs is listed in the order of the model's
    set, not in that of the Python set; every item of it can be drawn. The
    two quotients of the sanity check are floats of equal integers. *)
Definition randomize (rnd : nat → nat) : MR unit :=
  self ← liftM get;
  let all_possible_edges : gset (Z * Z) := list_to_set (all_pairs (N self)) in
  if negb (Z.of_nat (size all_possible_edges)
           =? Z.of_nat (N self) * (Z.of_nat (N self) - 1))
  then liftM (raise AssertionError) else
  num_edges ← randint 1 (Z.of_nat (size all_possible_edges) `div` 2) (rnd 0%nat);
  for_each_R (seqZ 0 num_edges) (λ i all_possible_edges,
    e ← choice (elements all_possible_edges) (rnd (Z.to_nat (2 * i + 1)));
    all_possible_edges ← set_remove e all_possible_edges;
    all_possible_edges ← set_remove (e.2, e.1) all_possible_edges;
    weight ← randint 1 100 (rnd (Z.to_nat (2 * i + 2)));
    liftM (add_edge e.1 e.2 weight);;
    mret all_possible_edges) all_possible_edges;;
  mret tt.

(** [Graph(N, randomize)]: with [Some rnd] the edges are drawn with the
    random numbers [rnd]. *)
Definition Graph_new (n : nat) (randomize_with : option (nat → nat))
    : (random_exn + result unit) * Graph R :=
  match randomize_with with
  | Some rnd => randomize rnd (Graph_init n)
  | None => (inr (Ok tt), Graph_init n)
  end.

(** What holds of the set of pairs left and of the graph after [k] rounds of
    the loop of [randomize] on [n] vertices. *)
Definition randomize_inv (n : nat) (k : nat) (s : gset (Z * Z)) (g : Graph R) : Prop :=
  N g = n ∧ tracker_reset g ∧
  (∀ x y, (x, y) ∈ s →
     0 ≤ x < Z.of_nat n ∧ 0 ≤ y < Z.of_nat n ∧ x ≠ y ∧ (y, x) ∈ s) ∧
  Z.of_nat (size s) + 2 * Z.of_nat k = Z.of_nat n * (Z.of_nat n - 1) ∧
  (∀ x y, (x, y) ∈ s → weight_of (adj g) x y = None) ∧
  (∀ u, is_Some (adj g !! u) ↔ 0 ≤ u < Z.of_nat n) ∧
  (∀ u v w, weight_of (adj g) u v = Some w →
     0 ≤ u < Z.of_nat n ∧ 0 ≤ v < Z.of_nat n ∧ u ≠ v ∧ 1 ≤ w ≤ 100 ∧
     weight_of (adj g) v u = None) ∧
  E g = Z.of_nat k ∧ E g = entry_count g.

End Random.

(** The numbers 3, 10, 17, ... as random numbers. *)
Definition draws (k : nat) : nat := (7 * k + 3)%nat.

(** The outcome of [optimal_score] as a function of the topology. *)
Definition optimum_result (n : nat) (a : gmap Z (gmap Z Z))
    : result (Z * list (list ascii)) :=
  match ceil_half_pow2 n with
  | Raise e => Raise e
  | Ok half =>
      fold_result (λ i (st : Z * list (list ascii)),
        match cut_result n a (zero_pad n (bin i)) with
        | Raise e => Raise e
        | Ok sc =>
            Ok (if st.1 <? sc then (sc, [zero_pad n (bin i)])
                else if sc =? st.1 then (st.1, st.2 ++ [zero_pad n (bin i)])
                else st)
        end) (seqZ 0 half) (0, [])
  end.

(** * Properties *)

Ltac unfold_M :=
  unfold mbind, M_bind, mret, M_ret, bind, ret, raise, get, modify, lift in *.

(** ** Loops *)

Section Loops.
Context {R : Type}.
Implicit Types g : Graph R.

Lemma for_each_frame {A S} (l : list A) (body : A → S → M R S) s g :
  (∀ x s, x ∈ l → (body x s g).2 = g) → (for_each l body s g).2 = g.
Proof.
  revert s. induction l as [|x l IH]; intros s Hbody; simpl; [done|].
  unfold_M. pose proof (Hbody x s (list_elem_of_here _ _)) as Hx.
  destruct (body x s g) as [[s'|e] g']; simpl in Hx; subst g'; [|done].
  apply IH. intros y t Hy. apply Hbody. by apply list_elem_of_further.
Qed.

Lemma for_each_pure {A S} (f : A → S → result S) (l : list A)
    (body : A → S → M R S) s g :
  (∀ x s, x ∈ l → body x s g = (f x s, g)) →
  for_each l body s g = (fold_result f l s, g).
Proof.
  revert s. induction l as [|x l IH]; intros s Hbody; simpl; [done|].
  unfold_M. rewrite (Hbody x s (list_elem_of_here _ _)).
  destruct (f x s) as [s'|e]; [|done].
  apply IH. intros y t Hy. apply Hbody. by apply list_elem_of_further.
Qed.

Lemma fold_result_ext {A S} (f f' : A → S → result S) (l : list A) s :
  (∀ x s, x ∈ l → f x s = f' x s) → fold_result f l s = fold_result f' l s.
Proof.
  revert s. induction l as [|x l IH]; intros s Hf; simpl; [done|].
  rewrite (Hf x s (list_elem_of_here _ _)).
  destruct (f' x s); [|done].
  apply IH. intros y t Hy. apply Hf. by apply list_elem_of_further.
Qed.

Lemma fold_result_inv {A S} (P : S → Prop) (f : A → S → result S) (l : list A) s :
  P s → (∀ x s, x ∈ l → P s → ∃ s', f x s = Ok s' ∧ P s') →
  ∃ s', fold_result f l s = Ok s' ∧ P s'.
Proof.
  revert s. induction l as [|x l IH]; intros s Hs Hf; simpl; [by exists s|].
  destruct (Hf x s (list_elem_of_here _ _) Hs) as (s' & -> & Hs').
  apply IH; [done|]. intros y t Hy. apply Hf. by apply list_elem_of_further.
Qed.

End Loops.

(** ** Indexing *)

Lemma getitem_in_range {A} (s : list A) i :
  in_range (length s) i = true → ∃ a, getitem s i = Ok a.
Proof.
  unfold in_range, getitem. intros Hi.
  apply andb_true_iff in Hi as [Hlo Hhi].
  apply Z.leb_le in Hlo. apply Z.ltb_lt in Hhi.
  set (j := if i <? 0 then i + Z.of_nat (length s) else i).
  assert (0 ≤ j < Z.of_nat (length s)) as Hj.
  { unfold j. destruct (Z.ltb_spec i 0); lia. }
  replace ((0 <=? j) && (j <? Z.of_nat (length s))) with true
    by (symmetry; apply andb_true_iff; split; [apply Z.leb_le|apply Z.ltb_lt]; lia).
  destruct (lookup_lt_is_Some_2 s (Z.to_nat j)) as [a Ha]; [lia|].
  rewrite Ha. by exists a.
Qed.

Lemma getitem_fmap {A B} (f : A → B) (s : list A) i :
  getitem (f <$> s) i =
  match getitem s i with Ok a => Ok (f a) | Raise e => Raise e end.
Proof.
  unfold getitem. rewrite length_fmap, list_lookup_fmap.
  destruct (_ && _); [|done]. by destruct (s !! _).
Qed.

Lemma getitem_replicate {A} (n : nat) (a : A) i :
  in_range n i = true → getitem (replicate n a) i = Ok a.
Proof.
  intros Hi. destruct (getitem_in_range (replicate n a) i) as [c Hc].
  { by rewrite length_replicate. }
  rewrite Hc. f_equal. unfold getitem in Hc.
  destruct (_ && _); [|done].
  destruct (replicate n a !! _) as [c'|] eqn:Hl; [|done].
  apply lookup_replicate in Hl as [-> _]. congruence.
Qed.

(** ** Bitstrings *)

Lemma flip_bit_inj c d : flip_bit c = flip_bit d → c = d.
Proof.
  unfold flip_bit. repeat case_bool_decide; congruence.
Qed.

Lemma flip_bit_involutive c : flip_bit (flip_bit c) = c.
Proof.
  unfold flip_bit. repeat case_bool_decide; congruence.
Qed.

Lemma flip_bit_is_bit c : is_bit c = true → is_bit (flip_bit c) = true.
Proof.
  unfold is_bit, flip_bit. repeat case_bool_decide; simpl; congruence.
Qed.

Lemma complement_length b : length (complement b) = length b.
Proof. apply length_fmap. Qed.

Lemma complement_involutive b : complement (complement b) = b.
Proof.
  unfold complement. rewrite <- list_fmap_compose.
  rewrite <- (list_fmap_id b) at 2. apply list_fmap_ext.
  intros _ c _. apply flip_bit_involutive.
Qed.

Lemma complement_is_bits b : is_bits b = true → is_bits (complement b) = true.
Proof.
  unfold is_bits, complement. induction b as [|c b IH]; simpl; [done|].
  intros [Hc Hb]%andb_true_iff. apply andb_true_iff.
  split; [by apply flip_bit_is_bit | by apply IH].
Qed.

(** ** Scoring *)

Section ScoreResult.
Context {A : Type} `{EqDecision A}.
Implicit Types b : list A.

Lemma cut_step_ok b u e score :
  in_range (length b) u && in_range (length b) e.1 = true →
  ∃ s, cut_step b u e score = Ok s.
Proof.
  intros [Hu Hv]%andb_true_iff. unfold cut_step.
  destruct (getitem_in_range b u Hu) as [bu ->].
  destruct (getitem_in_range b e.1 Hv) as [bv ->]. eauto.
Qed.

Lemma forallb_elem {X} (P : X → bool) (l : list X) x :
  forallb P l = true → x ∈ l → P x = true.
Proof.
  intros Hl Hx. rewrite forallb_forall in Hl. apply Hl. by apply list_elem_of_In.
Qed.

Lemma cut_result_wrong_length n a b :
  length b ≠ n → cut_result n a b = Raise AssertionError.
Proof.
  intros Hn. unfold cut_result.
  destruct (Nat.eqb_spec (length b) n); [done|done].
Qed.

End ScoreResult.

Section GetScore.
Context {R : Type} `{FloatOps R}.
Implicit Types g : Graph R.

Section Generic.
Context {A : Type} `{EqDecision A}.
Implicit Types b : list A.

(** [get_score] reads the topology and changes nothing. *)
Lemma get_score_eq b g : get_score b g = (cut_result (N g) (adj g) b, g).
Proof.
  unfold get_score, cut_result. unfold_M.
  destruct (negb _); [done|].
  apply for_each_pure. intros [u row] score _.
  apply for_each_pure. intros [v w] s _. unfold cut_step. simpl.
  destruct (getitem b u) as [bu|]; [|done].
  destruct (getitem b v) as [bv|]; [|done].
  by case_bool_decide.
Qed.

Lemma score_of_eq b g s : cut_result (N g) (adj g) b = Ok s → score_of g b = s.
Proof. intros Hs. unfold score_of. by rewrite get_score_eq; simpl; rewrite Hs. Qed.

Lemma indexable_edge g u row v w :
  indexable g = true → (u, row) ∈ map_to_list (adj g) → (v, w) ∈ map_to_list row →
  in_range (N g) u && in_range (N g) v = true.
Proof.
  intros Hg Hu Hv. unfold indexable in Hg.
  pose proof (forallb_elem _ _ _ Hg Hu) as Hrow. simpl in Hrow.
  apply (forallb_elem _ _ _ Hrow Hv).
Qed.

Lemma cut_result_ok b g :
  indexable g = true → length b = N g → ∃ s, cut_result (N g) (adj g) b = Ok s.
Proof.
  intros Hg Hb. unfold cut_result. rewrite Hb, Nat.eqb_refl. simpl.
  destruct (fold_result_inv (λ _, True)
    (λ r score, fold_result (cut_step b r.1) (map_to_list r.2) score)
    (map_to_list (adj g)) 0 I) as (s & Hs & _); [|by exists s].
  intros [u row] score Hu _. simpl.
  destruct (fold_result_inv (λ _, True) (cut_step b u) (map_to_list row) score I)
    as (s & Hs & _); [|by exists s].
  intros [v w] t Hv _.
  destruct (cut_step_ok b u (v, w) t) as [s Hs]; [|by exists s].
  rewrite Hb. by eapply indexable_edge.
Qed.

Lemma get_score_ok b g :
  indexable g = true → length b = N g → get_score b g = (Ok (score_of g b), g).
Proof.
  intros Hg Hb. destruct (cut_result_ok b g Hg Hb) as [s Hs].
  by rewrite (score_of_eq _ _ _ Hs), get_score_eq, Hs.
Qed.

(** A sequence whose items are all the same cuts nothing. *)
Lemma cut_result_uniform (c : A) g :
  indexable g = true → cut_result (N g) (adj g) (replicate (N g) c) = Ok 0.
Proof.
  intros Hg. unfold cut_result. rewrite length_replicate, Nat.eqb_refl. simpl.
  destruct (fold_result_inv (λ s, s = 0)
    (λ r score, fold_result (cut_step (replicate (N g) c) r.1) (map_to_list r.2) score)
    (map_to_list (adj g)) 0 eq_refl) as (s & Hs & ->); [|done].
  intros [u row] score Hu ->. simpl.
  apply fold_result_inv; [done|].
  intros [v w] t Hv ->.
  pose proof (indexable_edge _ _ _ _ _ Hg Hu Hv) as [Hiu Hiv]%andb_true_iff.
  unfold cut_step. simpl. rewrite !getitem_replicate by done.
  exists 0. by rewrite bool_decide_false by naive_solver.
Qed.

End Generic.

(** The cut is the same when every vertex changes side. *)
Lemma cut_result_complement n a b :
  cut_result n a (complement b) = cut_result n a b.
Proof.
  unfold cut_result. rewrite complement_length.
  destruct (negb _); [done|].
  apply fold_result_ext. intros [u row] score _. simpl.
  apply fold_result_ext. intros [v w] s _.
  unfold cut_step, complement. simpl. rewrite !getitem_fmap.
  destruct (getitem b u) as [bu|]; [|done].
  destruct (getitem b v) as [bv|]; [|done].
  f_equal. repeat case_bool_decide; try done.
  - exfalso. naive_solver.
  - exfalso. eauto using flip_bit_inj.
Qed.

Lemma score_of_complement g b : score_of g (complement b) = score_of g b.
Proof. unfold score_of. by rewrite !get_score_eq; simpl; rewrite cut_result_complement. Qed.

End GetScore.

(** ** Wrong length (C6) *)

Section WrongLength.
Context {R : Type} {A : Type} `{EqDecision A}.

(** C6: for every sequence whose length differs from the vertex count [N] of
    the graph, [get_score] fails: the assertion on the length raises
    [AssertionError] (the invalid-argument failure of the specification), and
    the graph is left as it was. *)
Theorem get_score_wrong_length (g : Graph R) (b : list A) :
  length b ≠ N g → get_score b g = (Raise AssertionError, g).
Proof.
  intros Hlen. rewrite get_score_eq. by rewrite cut_result_wrong_length.
Qed.

End WrongLength.

(** [score([0,1])] on a 3-vertex graph. *)
Lemma get_score_wrong_length_witness :
  length [0; 1] ≠ N path3 ∧ get_score [0; 1] path3 = (Raise AssertionError, path3).
Proof.
  split.
  - vm_compute. lia.
  - apply get_score_wrong_length. vm_compute. lia.
Defined.

(** ** Cut symmetry (C7) *)

Section Symmetry.
Context {R : Type}.

(** C7: on every graph, [get_score] does the same on a bitstring [b] and on
    its bitwise complement; when [b] has length [N] and the stored edges join
    valid indices, both calls return the same score. *)
Theorem get_score_complement (g : Graph R) (b : list ascii) :
  get_score (complement b) g = get_score b g ∧
  (length b = N g → indexable g = true →
   ∃ s, get_score b g = (Ok s, g) ∧ get_score (complement b) g = (Ok s, g)).
Proof.
  assert (get_score (complement b) g = get_score b g) as Heq.
  { by rewrite !get_score_eq, cut_result_complement. }
  split; [done|]. intros Hlen Hg. exists (score_of g b).
  rewrite Heq. split; by apply get_score_ok.
Qed.

End Symmetry.

Lemma get_score_complement_witness :
  complement (str "011") = str "100" ∧
  length (str "011") = N path3 ∧ indexable path3 = true ∧
  get_score (str "100") path3 = get_score (str "011") path3 ∧
  ∃ s, get_score (str "011") path3 = (Ok s, path3) ∧
       get_score (str "100") path3 = (Ok s, path3).
Proof.
  split; [reflexivity|]. split; [reflexivity|]. split; [reflexivity|].
  destruct (get_score_complement path3 (str "011")) as [Heq Hok].
  split; [exact Heq|]. apply Hok; reflexivity.
Defined.

(** ** The exact benchmark does not touch the graph (C10) *)

Section Frame.
Context {R : Type} `{FloatOps R}.

(** C10: [optimal_score] leaves the graph exactly as it found it, whether it
    returns or raises: [currentScore], [currentBest], [runs], [N], [E] and
    [adj] are all unchanged. *)
Theorem optimal_score_frame (g : Graph R) : (optimal_score g).2 = g.
Proof.
  unfold optimal_score. unfold_M.
  destruct (ceil_half_pow2 (N g)) as [n|]; [|done].
  apply for_each_frame. intros i [best best_val] _.
  rewrite get_score_eq.
  destruct (cut_result _ _ _) as [sc|]; [|done].
  destruct (best <? sc); [done|]. by destruct (sc =? best).
Qed.

End Frame.

(** ** Adding edges (C2, C3) *)

Section AddEdge.
Context {R : Type}.
Implicit Types g : Graph R.

Lemma add_edge_eq u v w g :
  add_edge u v w g =
  match adj g !! u with
  | Some row => (Ok tt, set_adj (<[u := <[v := w]> row]> (adj g)) (set_E (E g + 1) g))
  | None => (Raise KeyError, set_E (E g + 1) g)
  end.
Proof. unfold add_edge. unfold_M. simpl. by destruct (adj g !! u). Qed.

Lemma Graph_init_lookup (n : nat) (u : Z) :
  adj (Graph_init (R:=R) n) !! u = if bool_decide (0 ≤ u < Z.of_nat n) then Some ∅ else None.
Proof.
  simpl. case_bool_decide as Hu.
  - apply elem_of_list_to_map.
    + rewrite <- list_fmap_compose. simpl. rewrite list_fmap_id. apply NoDup_seqZ.
    + apply list_elem_of_fmap. exists u. split; [done|]. apply elem_of_seqZ. lia.
  - apply not_elem_of_list_to_map. rewrite <- list_fmap_compose. simpl.
    rewrite list_fmap_id. rewrite elem_of_seqZ. lia.
Qed.

(** The vertices are those of [range(N)], and [add_edge] keeps them. *)
Lemma add_edge_vertices u v w g u' :
  is_Some (adj (add_edge u v w g).2 !! u') ↔ is_Some (adj g !! u').
Proof.
  rewrite add_edge_eq. destruct (adj g !! u) as [row|] eqn:Hu; simpl; [|done].
  destruct (decide (u = u')) as [->|Hne].
  - rewrite lookup_insert_eq, Hu. split; eauto.
  - by rewrite lookup_insert_ne.
Qed.

(** C2, as the code has it: [add_edge] validates neither the endpoints nor
    the weight. For every vertex [u] of the graph and every [v] and [weight],
    also when [u = v] or [weight <= 0], the call succeeds, increments the edge
    counter and stores [weight] for the pair. *)
Theorem add_edge_succeeds g u v weight row :
  adj g !! u = Some row →
  ∃ g', add_edge u v weight g = (Ok tt, g') ∧
        E g' = E g + 1 ∧
        adj g' = <[u := <[v := weight]> row]> (adj g) ∧
        (adj g' !! u) ≫= (λ r, r !! v) = Some weight.
Proof.
  intros Hu. rewrite add_edge_eq, Hu. eexists. split; [done|]. simpl.
  split; [done|]. split; [done|].
  rewrite lookup_insert_eq. simpl. apply lookup_insert_eq.
Qed.

End AddEdge.

(** [add_edge(0,1,-1)] and [add_edge(0,0,5)] on [Graph(2, randomize=False)]. *)
Lemma add_edge_succeeds_witness :
  adj (Graph_init (R:=Q) 2) !! 0 = Some ∅ ∧
  (∃ g', add_edge 0 1 (-1) (Graph_init (R:=Q) 2) = (Ok tt, g') ∧
         E g' = E (Graph_init (R:=Q) 2) + 1 ∧
         adj g' = <[0 := <[1 := -1]> ∅]> (adj (Graph_init (R:=Q) 2)) ∧
         (adj g' !! 0) ≫= (λ r, r !! 1) = Some (-1)).
Proof.
  split; [reflexivity|].
  apply (add_edge_succeeds (Graph_init 2) 0 1 (-1) ∅). reflexivity.
Defined.

(** Neither a negative weight nor a self-loop is refused. *)
Lemma add_edge_accepts_invalid :
  (add_edge 0 1 (-1) (Graph_init (R:=Q) 2)).1 = Ok tt ∧
  (add_edge 0 0 5 (Graph_init (R:=Q) 2)).1 = Ok tt.
Proof. split; reflexivity. Qed.

(** C3 at [Graph(2, randomize=False)], [add_edge(0,1,5)], [add_edge(0,1,3)]:
    the second call overwrites the weight of the pair and still increments
    the counter, so that [E] is 2 while the neighbour maps hold one entry. *)
Theorem add_edge_twice_counter :
  let g := ((add_edge 0 1 5;; add_edge 0 1 3) (Graph_init (R:=Q) 2)).2 in
  E g = 2 ∧ entry_count g = 1 ∧ (adj g !! 0) ≫= (λ r, r !! 1) = Some 3.
Proof. vm_compute. done. Qed.

(** The counter is right as long as no ordered pair is added twice. *)
Section Counter.
Context {R : Type}.
Implicit Types g : Graph R.

Lemma entries_insert (a : gmap Z (gmap Z Z)) u row row' :
  a !! u = Some row →
  (sum_list (size <$> (map_to_list (<[u := row']> a)).*2) + size row =
   sum_list (size <$> (map_to_list a).*2) + size row')%nat.
Proof.
  intros Hu. rewrite <- (insert_delete_id a u row) at 2 by done.
  rewrite <- (insert_delete_eq a u row').
  rewrite !map_to_list_insert by apply lookup_delete_eq.
  simpl. lia.
Qed.

Lemma entries_all_empty (l : list (Z * gmap Z Z)) :
  Forall (λ r, r.2 = ∅) l → sum_list (size <$> l.*2) = 0%nat.
Proof.
  induction 1 as [|[u row] l Hrow _ IH]; [done|].
  simpl in Hrow. subst row. rewrite !fmap_cons. simpl.
  change (sum_list (size <$> l.*2) = 0)%nat. exact IH.
Qed.

Lemma Graph_init_counter n :
  E (Graph_init (R:=R) n) = entry_count (Graph_init (R:=R) n).
Proof.
  unfold entry_count. rewrite entries_all_empty; [done|].
  apply Forall_forall. intros [u row] Hin.
  apply elem_of_map_to_list in Hin.
  rewrite Graph_init_lookup in Hin. simpl.
  case_bool_decide; congruence.
Qed.

Lemma add_edge_fresh_counter u v w g row :
  adj g !! u = Some row → row !! v = None →
  E g = entry_count g →
  E (add_edge u v w g).2 = entry_count (add_edge u v w g).2.
Proof.
  intros Hu Hv HE. rewrite add_edge_eq, Hu. unfold entry_count in *. simpl.
  pose proof (entries_insert (adj g) u row (<[v := w]> row) Hu) as Hsum.
  rewrite map_size_insert_None in Hsum by done. lia.
Qed.

End Counter.

(** ** The path on three vertices (C9) *)

(** C9: on the graph with the edges (0,1) of weight 5 and (1,2) of weight 3,
    [get_score] returns 0 for "000", 8 for "010", 5 for "100", 3 for "001",
    5 for "011" and 3 for "110", and [optimal_score] returns 8 with "010" as
    the only maximiser among the examined candidates. *)
Theorem path3_scores :
  (add_edge 0 1 5;; add_edge 1 2 3) (Graph_init 3) = (Ok tt, path3) ∧
  get_score (str "000") path3 = (Ok 0, path3) ∧
  get_score (str "010") path3 = (Ok 8, path3) ∧
  get_score (str "100") path3 = (Ok 5, path3) ∧
  get_score (str "001") path3 = (Ok 3, path3) ∧
  get_score (str "011") path3 = (Ok 5, path3) ∧
  get_score (str "110") path3 = (Ok 3, path3) ∧
  optimal_score path3 = (Ok (8, [str "010"]), path3).
Proof. repeat split; vm_compute; reflexivity. Qed.

(** ** Best-found tracking (C5) *)

Section Tracking.
Context {R : Type}.
Implicit Types g : Graph R.

Lemma best_le_refl a : best_le a a.
Proof. destruct a; simpl; [done|lia]. Qed.

Lemma best_le_trans a b c : best_le a b → best_le b c → best_le a c.
Proof. destruct a, b, c; simpl; try done; lia. Qed.

Lemma exceeds_false s c : exceeds s c = false ↔ best_le (Score s) c.
Proof.
  destruct c as [|c]; simpl; [split; [done|intros []]|].
  rewrite Z.ltb_ge. done.
Qed.

Lemma update_score_eq b g :
  update_score b g =
  match cut_result (N g) (adj g) b with
  | Ok s => (Ok s, if exceeds s (currentScore g)
                   then set_currentBest b (set_currentScore (Score s) g)
                   else g)
  | Raise e => (Raise e, g)
  end.
Proof.
  unfold update_score. unfold_M. rewrite get_score_eq.
  destruct (cut_result _ _ _) as [s|]; [|done].
  by destruct (exceeds s (currentScore g)).
Qed.

Lemma score_of_topology {A} `{EqDecision A} g g' (b : list A) :
  N g' = N g → adj g' = adj g → score_of g' b = score_of g b.
Proof.
  intros HN Hadj. unfold score_of. rewrite !get_score_eq. simpl.
  by rewrite HN, Hadj.
Qed.

Lemma indexable_topology g g' :
  N g' = N g → adj g' = adj g → indexable g' = indexable g.
Proof. intros HN Hadj. unfold indexable. by rewrite HN, Hadj. Qed.

(** One call on a valid bitstring: the value returned and the new state. *)
Lemma update_score_ok b g :
  indexable g = true → length b = N g →
  ∃ g', update_score b g = (Ok (score_of g b), g') ∧
        N g' = N g ∧ E g' = E g ∧ adj g' = adj g ∧ runs g' = runs g ∧
        best_le (currentScore g) (currentScore g') ∧
        best_le (Score (score_of g b)) (currentScore g') ∧
        ((currentScore g' = currentScore g ∧ currentBest g' = currentBest g) ∨
         (currentScore g' = Score (score_of g b) ∧ currentBest g' = b)).
Proof.
  intros Hg Hb. destruct (cut_result_ok b g Hg Hb) as [s Hs].
  rewrite update_score_eq, Hs, (score_of_eq _ _ _ Hs).
  destruct (exceeds s (currentScore g)) eqn:Hex; eexists; (split; [done|]); simpl.
  - repeat split; try done; [|by right].
    destruct (currentScore g) as [|c]; simpl in *; [done|]. apply Z.ltb_lt in Hex. lia.
  - repeat split; try done; [apply best_le_refl|by apply exceeds_false|by left].
Qed.

Lemma update_score_seq_ok bs g :
  indexable g = true → Forall (λ b, length b = N g) bs →
  ∃ g', update_score_seq bs g = (Ok (score_of g <$> bs), g') ∧
        N g' = N g ∧ E g' = E g ∧ adj g' = adj g ∧ runs g' = runs g ∧
        best_le (currentScore g) (currentScore g') ∧
        (∀ b, b ∈ bs → best_le (Score (score_of g b)) (currentScore g')) ∧
        ((currentScore g' = currentScore g ∧ currentBest g' = currentBest g) ∨
         (currentBest g' ∈ bs ∧
          currentScore g' = Score (score_of g (currentBest g')))).
Proof.
  revert g. induction bs as [|b bs IH]; intros g Hg Hbs.
  - exists g. simpl. repeat split; try done; [apply best_le_refl| |by left].
    intros b Hb. by apply elem_of_nil in Hb.
  - apply Forall_cons in Hbs as [Hb Hbs].
    destruct (update_score_ok b g Hg Hb)
      as (g1 & Hrun1 & HN1 & HE1 & Hadj1 & Hruns1 & Hle1 & Hb1 & Htrack1).
    destruct (IH g1) as (g' & Hrun & HN & HE & Hadj & Hruns & Hle & Hall & Htrack).
    { by rewrite (indexable_topology g g1). }
    { by rewrite HN1. }
    exists g'. cbn [update_score_seq]. unfold_M. rewrite Hrun1, Hrun.
    rewrite (list_fmap_ext (score_of g1) (score_of g) bs)
      by (intros; by apply score_of_topology).
    split; [done|].
    repeat split; try congruence.
    + by eapply best_le_trans.
    + intros x [->|Hx]%elem_of_cons.
      * by eapply best_le_trans.
      * rewrite <- (score_of_topology g g1) by done. by apply Hall.
    + destruct Htrack as [[Hs Hc]|[Hin Hs]].
      * destruct Htrack1 as [[Hs1 Hc1]|[Hs1 Hc1]].
        -- left. split; congruence.
        -- right. rewrite Hc, Hc1. split; [apply list_elem_of_here|congruence].
      * right. split; [by apply list_elem_of_further|].
        rewrite Hs. f_equal. by apply score_of_topology.
Qed.

Lemma Graph_init_tracker_reset n : tracker_reset (Graph_init (R:=R) n).
Proof. done. Qed.

Lemma add_edge_tracker_reset u v w g :
  tracker_reset g → tracker_reset (add_edge u v w g).2.
Proof. rewrite add_edge_eq. by destruct (adj g !! u). Qed.

Lemma clear_runs_eq g :
  clear_runs g = (Ok tt, mkGraph (N g) (E g) (adj g) NegInf [] []).
Proof. done. Qed.

Lemma clear_runs_tracker_reset g : tracker_reset (clear_runs g).2.
Proof. done. Qed.

(** C5: starting from a graph whose tracker is reset, which is the case of a
    freshly created graph ([Graph_init_tracker_reset],
    [add_edge_tracker_reset]) and of a cleared one
    ([clear_runs_tracker_reset]), every sequence of [update_score] calls on
    bitstrings of length [N] returns the score of each argument; afterwards
    [currentScore] is the maximum of these scores and [currentBest] is one of
    the bitstrings passed, with that score. *)
Theorem update_score_tracks_maximum g bs :
  tracker_reset g → indexable g = true → Forall (λ b, length b = N g) bs →
  ∃ g', update_score_seq bs g = (Ok (score_of g <$> bs), g') ∧
        (bs = [] → currentScore g' = NegInf) ∧
        (bs ≠ [] →
         ∃ m, currentScore g' = Score m ∧
              (∀ b, b ∈ bs → score_of g b ≤ m) ∧
              currentBest g' ∈ bs ∧
              score_of g (currentBest g') = m).
Proof.
  intros (Hreset & _ & _) Hg Hbs.
  destruct (update_score_seq_ok bs g Hg Hbs)
    as (g' & Hrun & _ & _ & _ & _ & _ & Hall & Htrack).
  exists g'. split; [done|]. split.
  - intros ->. simpl in Hrun. unfold_M. congruence.
  - intros Hne. destruct Htrack as [[Hs _]|[Hin Hs]].
    + destruct bs as [|b bs]; [done|].
      specialize (Hall b (list_elem_of_here _ _)).
      rewrite Hs, Hreset in Hall. destruct Hall.
    + exists (score_of g (currentBest g')). repeat split; try done.
      intros b Hb. specialize (Hall b Hb). by rewrite Hs in Hall.
Qed.

End Tracking.

Lemma update_score_tracks_maximum_witness :
  tracker_reset path3 ∧ indexable path3 = true ∧
  Forall (λ b, length b = N path3) [str "001"; str "010"; str "011"] ∧
  ∃ g', update_score_seq [str "001"; str "010"; str "011"] path3 = (Ok [3; 8; 5], g') ∧
        currentScore g' = Score 8 ∧ currentBest g' = str "010".
Proof.
  assert (Forall (λ b, length b = N path3) [str "001"; str "010"; str "011"]) as Hlen.
  { repeat constructor. }
  split; [done|]. split; [reflexivity|]. split; [done|].
  destruct (update_score_tracks_maximum path3 [str "001"; str "010"; str "011"])
    as (g' & Hrun & _ & _); [done|reflexivity|done|].
  exists g'. split; [exact Hrun|].
  assert (g' = (update_score_seq [str "001"; str "010"; str "011"] path3).2) as ->.
  { by rewrite Hrun. }
  split; reflexivity.
Defined.

(** ** Clearing and replaying (C8) *)

Section Replay.
Context {R : Type} `{FloatOps R}.
Implicit Types g : Graph R.

Lemma for_each_agree {A S} (l : list A) (body : A → S → M R S) s g g' :
  (∀ x s g g', agree g g' →
     (body x s g).1 = (body x s g').1 ∧ agree (body x s g).2 (body x s g').2) →
  agree g g' →
  (for_each l body s g).1 = (for_each l body s g').1 ∧
  agree (for_each l body s g).2 (for_each l body s g').2.
Proof.
  intros Hbody. revert s g g'.
  induction l as [|x l IH]; intros s g g' Hg; simpl; [done|].
  unfold_M. destruct (Hbody x s g g' Hg) as [Hr Hg1].
  destruct (body x s g) as [r g1], (body x s g') as [r' g1'].
  simpl in Hr, Hg1. subst r'. destruct r as [s'|e]; [|done].
  by apply IH.
Qed.

Lemma update_score_agree b g g' :
  agree g g' →
  (update_score b g).1 = (update_score b g').1 ∧
  agree (update_score b g).2 (update_score b g').2.
Proof.
  intros Hg. pose proof Hg as ((HN & Hadj) & Hs & Hb & Hr).
  rewrite !update_score_eq, <- HN, <- Hadj, <- Hs.
  destruct (cut_result _ _ _) as [s|]; [|done].
  destruct (exceeds s (currentScore g)); [|done].
  split; [done|]. by repeat split.
Qed.

Lemma add_run_agree gamma beta e g g' :
  agree g g' →
  (add_run gamma beta e g).1 = (add_run gamma beta e g').1 ∧
  agree (add_run gamma beta e g).2 (add_run gamma beta e g').2.
Proof.
  intros ((HN & Hadj) & Hs & Hb & Hr). split; [done|].
  repeat split; simpl; congruence.
Qed.

(** [get_edges] returns a list and changes nothing. *)
Lemma get_edges_ok g : ∃ edges, get_edges g = (Ok edges, g).
Proof.
  unfold get_edges. unfold_M.
  rewrite (for_each_pure
    (λ r edges, fold_result (λ e edges, Ok (edges ++ [(r.1, e.1, e.2)]))
                  (map_to_list r.2) edges)).
  - destruct (fold_result_inv (λ _, True)
      (λ (r : Z * gmap Z Z) (edges : list (Z * Z * Z)),
         fold_result (λ e edges, Ok (edges ++ [(r.1, e.1, e.2)]))
           (map_to_list r.2) edges)
      (map_to_list (adj g)) [] I) as (edges & -> & _); [|by exists edges].
    intros r edges _ _.
    destruct (fold_result_inv (λ _, True)
      (λ (e : Z * Z) (edges : list (Z * Z * Z)), Ok (edges ++ [(r.1, e.1, e.2)]))
      (map_to_list r.2) edges I) as (edges' & -> & _); [|by exists edges'].
    intros e t _ _. by eexists.
  - intros [u row] edges _. apply for_each_pure. by intros [v w] t _.
Qed.

Lemma get_expectation_agree x d n g g' :
  agree g g' →
  (get_expectation x d n g).1 = (get_expectation x d n g').1 ∧
  agree (get_expectation x d n g).2 (get_expectation x d n g').2.
Proof.
  intros Hg. unfold get_expectation. destruct x as [gamma beta].
  destruct (get_edges_ok g) as [edges Hedges].
  destruct (get_edges_ok g') as [edges' Hedges'].
  unfold_M. rewrite Hedges, Hedges'.
  match goal with
  | |- context [for_each d ?body ?s g] =>
      destruct (for_each_agree d body s g g') as [Hr Hg1]; [|done|]
  end.
  - clear. intros [b c] e g g' Hg.
    destruct (to_float c) as [fc|]; [|done].
    destruct (to_float n) as [fn|]; [|done].
    destruct (n =? 0); [done|].
    destruct (update_score_agree b g g' Hg) as [Hr Hg1].
    destruct (update_score b g) as [r g1], (update_score b g') as [r' g1'].
    simpl in Hr, Hg1. subst r'. destruct r as [s|]; [|done].
    by destruct (to_float s).
  - destruct (for_each d _ _ g) as [r g1], (for_each d _ _ g') as [r' g1'].
    simpl in Hr, Hg1. subst r'. destruct r as [e|]; [|done].
    destruct (add_run_agree gamma beta e g1 g1' Hg1) as [Hr Hg2].
    destruct (add_run gamma beta e g1) as [r g2],
             (add_run gamma beta e g1') as [r' g2'].
    simpl in Hr, Hg2. subst r'. by destruct r.
Qed.

Lemma perform_agree c g g' :
  agree g g' →
  (perform c g).1 = (perform c g').1 ∧ agree (perform c g).2 (perform c g').2.
Proof.
  intros Hg. destruct c as [b|gamma beta e|x d n]; unfold perform; unfold_M.
  - destruct (update_score_agree b g g' Hg) as [Hr Hg1].
    destruct (update_score b g) as [r g1], (update_score b g') as [r' g1'].
    simpl in Hr, Hg1. subst r'. by destruct r.
  - destruct (add_run_agree gamma beta e g g' Hg) as [Hr Hg1].
    destruct (add_run gamma beta e g) as [r g1], (add_run gamma beta e g') as [r' g1'].
    simpl in Hr, Hg1. subst r'. by destruct r.
  - destruct (get_expectation_agree x d n g g' Hg) as [Hr Hg1].
    destruct (get_expectation x d n g) as [r g1],
             (get_expectation x d n g') as [r' g1'].
    simpl in Hr, Hg1. subst r'. by destruct r.
Qed.

Lemma trajectory_agree cs g g' :
  agree g g' → trajectory cs g = trajectory cs g'.
Proof.
  revert g g'. induction cs as [|c cs IH]; intros g g' Hg; simpl; [done|].
  destruct (perform_agree c g g' Hg) as [Hr Hg1].
  destruct (perform c g) as [r g1], (perform c g') as [r' g1'].
  simpl in Hr, Hg1. subst r'.
  pose proof Hg1 as (_ & Hs & Hb & Hruns).
  rewrite Hs, Hb, Hruns. f_equal. by apply IH.
Qed.

(** C8: [clear_runs] sets [currentScore] to negative infinity, [currentBest]
    to the empty string and [runs] to the empty list, and keeps the topology.
    Every sequence of [update_score], [add_run] and [get_expectation] calls
    then yields, call after call, the same outcomes, the same [currentScore],
    the same [currentBest] and the same run history as on a fresh graph with
    the same topology. *)
Theorem clear_runs_replays g0 g1 cs :
  same_topology g0 g1 → tracker_reset g1 →
  ∃ g, clear_runs g0 = (Ok tt, g) ∧
       currentScore g = NegInf ∧ currentBest g = [] ∧ runs g = [] ∧
       N g = N g0 ∧ E g = E g0 ∧ adj g = adj g0 ∧
       trajectory cs g = trajectory cs g1.
Proof.
  intros [HN Hadj] (Hs & Hb & Hr). rewrite clear_runs_eq.
  eexists. split; [done|]. simpl. repeat split; try done.
  apply trajectory_agree. by repeat split.
Qed.

End Replay.

Lemma clear_runs_replays_witness :
  same_topology used3 path3 ∧ tracker_reset path3 ∧
  E used3 = 3 ∧ E path3 = 2 ∧ currentScore used3 = Score 8 ∧
  ∃ g, clear_runs used3 = (Ok tt, g) ∧
       trajectory replay_calls g = trajectory replay_calls path3.
Proof.
  assert (same_topology used3 path3) as Htop by (split; reflexivity).
  assert (tracker_reset path3) as Hreset by done.
  split; [done|]. split; [done|]. repeat (split; [reflexivity|]).
  destruct (clear_runs_replays used3 path3 replay_calls Htop Hreset)
    as (g & Hclear & _ & _ & _ & _ & _ & _ & Htraj).
  by exists g.
Defined.

(** ** The objective (C1) *)

Section Objective.
Context {R : Type} `{FloatOps R}.
Implicit Types g : Graph R.

(** [get_expectation] in terms of its loop. *)
Lemma get_expectation_eq x d n g :
  get_expectation x d n g =
  match for_each d (expectation_step n) (of_int 0) g with
  | (Ok e, g1) => (Ok e, (add_run x.1 x.2 e g1).2)
  | (Raise err, g1) => (Raise err, g1)
  end.
Proof.
  unfold get_expectation. destruct x as [gamma beta].
  destruct (get_edges_ok g) as [edges Hedges].
  unfold_M. rewrite Hedges.
  change (for_each d _ (of_int 0) g)
    with (for_each d (expectation_step n) (of_int 0) g).
  by destruct (for_each d (expectation_step n) (of_int 0) g) as [[e|err] g1].
Qed.



Lemma convertible_topology g g' d :
  N g' = N g → adj g' = adj g → convertible g' d = convertible g d.
Proof.
  intros HN Hadj. unfold convertible.
  induction d as [|o d IH]; [done|]. cbn [forallb].
  by rewrite IH, (score_of_topology g g').
Qed.




End Objective.



(** ** Binary numerals *)

Section Binary.

Lemma bin_pos_app p acc : bin_pos p acc = bin_pos p [] ++ acc.
Proof.
  revert acc. induction p as [p IH|p IH|]; intros acc; simpl; [| |done].
  - rewrite (IH ("1"%char :: acc)), (IH ["1"%char]). by rewrite <- app_assoc.
  - rewrite (IH ("0"%char :: acc)), (IH ["0"%char]). by rewrite <- app_assoc.
Qed.

Lemma length_bin_pos p acc :
  length (bin_pos p acc) = (Pos.size_nat p + length acc)%nat.
Proof.
  revert acc. induction p as [p IH|p IH|]; intros acc; simpl; [| |done].
  - rewrite IH. simpl. lia.
  - rewrite IH. simpl. lia.
Qed.

Lemma size_nat_bound p (k : nat) :
  Z.pos p < 2 ^ Z.of_nat k → (Pos.size_nat p ≤ k)%nat.
Proof.
  revert k. induction p as [p IH|p IH|]; intros [|k] Hk; simpl in *; try lia.
  - rewrite Nat2Z.inj_succ, Z.pow_succ_r in Hk by lia.
    assert (Pos.size_nat p ≤ k)%nat by (apply IH; lia). lia.
  - rewrite Nat2Z.inj_succ, Z.pow_succ_r in Hk by lia.
    assert (Pos.size_nat p ≤ k)%nat by (apply IH; lia). lia.
Qed.

Lemma is_bits_app b b' :
  is_bits (b ++ b') = is_bits b && is_bits b'.
Proof. apply forallb_app. Qed.

Lemma is_bits_bin_pos p acc :
  is_bits acc = true → is_bits (bin_pos p acc) = true.
Proof.
  revert acc. induction p as [p IH|p IH|]; intros acc Hacc; simpl.
  - by apply IH.
  - by apply IH.
  - done.
Qed.

Lemma is_bits_bin i : is_bits (bin i) = true.
Proof. destruct i; simpl; try done. by apply is_bits_bin_pos. Qed.

Lemma is_bits_replicate_0 n : is_bits (replicate n "0"%char) = true.
Proof. induction n; simpl; [done|]. done. Qed.

Lemma is_bits_zero_pad n b : is_bits b = true → is_bits (zero_pad n b) = true.
Proof.
  intros Hb. unfold zero_pad. by rewrite is_bits_app, is_bits_replicate_0, Hb.
Qed.

Lemma length_zero_pad n b : (length b ≤ n)%nat → length (zero_pad n b) = n.
Proof.
  intros Hb. unfold zero_pad. rewrite length_app, length_replicate. lia.
Qed.

Lemma length_bin_bound i (k : nat) :
  0 ≤ i < 2 ^ Z.of_nat k → (length (bin i) ≤ S k)%nat.
Proof.
  intros Hi. destruct i as [|p|p]; simpl; [lia| |lia].
  rewrite length_bin_pos. simpl.
  assert (Pos.size_nat p ≤ k)%nat by (apply size_nat_bound; lia). lia.
Qed.

Lemma bin_double_bit v c :
  0 < v → is_bit c = true →
  bin (2 * v + (if bool_decide (c = "1"%char) then 1 else 0)) = bin v ++ [c].
Proof.
  intros Hv Hc. destruct v as [|p|p]; try lia.
  unfold is_bit in Hc. apply orb_true_iff in Hc as [Hc|Hc];
    apply bool_decide_eq_true in Hc; subst c; simpl.
  - apply bin_pos_app.
  - apply bin_pos_app.
Qed.

Lemma bits_value_snoc b c :
  bits_value (b ++ [c]) =
  2 * bits_value b + (if bool_decide (c = "1"%char) then 1 else 0).
Proof.
  induction b as [|d b IH]; simpl.
  - case_bool_decide; lia.
  - rewrite IH, length_app. simpl.
    replace (Z.of_nat (length b + 1)) with (Z.succ (Z.of_nat (length b))) by lia.
    rewrite Z.pow_succ_r by lia. repeat case_bool_decide; lia.
Qed.

Lemma bits_value_bound b : 0 ≤ bits_value b < 2 ^ Z.of_nat (length b).
Proof.
  induction b as [|d b IH]; simpl length; simpl bits_value; [simpl; lia|].
  rewrite Nat2Z.inj_succ, Z.pow_succ_r by lia. case_bool_decide; lia.
Qed.

(** Padding the numeral of the value of a bitstring gives it back. *)
Lemma zero_pad_bin_bits_value b :
  is_bits b = true → b ≠ [] → zero_pad (length b) (bin (bits_value b)) = b.
Proof.
  induction b as [|c b IH] using rev_ind; [done|]. intros Hbits _.
  rewrite is_bits_app in Hbits. apply andb_true_iff in Hbits as [Hb Hc].
  simpl in Hc. rewrite andb_true_r in Hc.
  rewrite bits_value_snoc, length_app. simpl length.
  destruct (decide (b = [])) as [->|Hne].
  { simpl. unfold is_bit in Hc. apply orb_true_iff in Hc as [Hc|Hc];
      apply bool_decide_eq_true in Hc; by subst c. }
  specialize (IH Hb Hne).
  pose proof (bits_value_bound b) as Hv.
  destruct (decide (bits_value b = 0)) as [Hz|Hnz].
  - rewrite Hz in IH |- *. unfold zero_pad in IH. simpl in IH.
    assert (bin (2 * 0 + (if bool_decide (c = "1"%char) then 1 else 0)) = [c]) as ->.
    { unfold is_bit in Hc. apply orb_true_iff in Hc as [Hc|Hc];
        apply bool_decide_eq_true in Hc; by subst c. }
    unfold zero_pad. simpl length.
    replace (length b + 1 - 1)%nat with (S (length b - 1)).
    2:{ destruct b; [done|]. simpl. lia. }
    by rewrite replicate_S_end, IH.
  - rewrite bin_double_bit by (done || lia).
    unfold zero_pad in IH |- *. rewrite length_app. simpl length.
    replace (length b + 1 - (length (bin (bits_value b)) + 1))%nat
      with (length b - length (bin (bits_value b)))%nat by lia.
    by rewrite app_assoc, IH.
Qed.

Lemma ceil_half_pow2_pos (n : nat) :
  (1 ≤ n ≤ 1024)%nat → ceil_half_pow2 n = Ok (2 ^ Z.of_nat (n - 1)).
Proof.
  intros Hn. unfold ceil_half_pow2.
  destruct (Z.ltb_spec 1024 (Z.of_nat n)); [lia|]. f_equal.
  replace (Z.of_nat n) with (Z.succ (Z.of_nat (n - 1))) by lia.
  rewrite Z.pow_succ_r by lia.
  assert (0 < 2 ^ Z.of_nat (n - 1)) by (apply Z.pow_pos_nonneg; lia).
  symmetry. apply Z.div_unique with (r := 1); lia.
Qed.

Lemma examined_pos (n : nat) :
  (1 ≤ n)%nat →
  examined n = (λ i, zero_pad n (bin i)) <$> seqZ 0 (2 ^ Z.of_nat (n - 1)).
Proof.
  intros Hn. unfold examined. f_equal. f_equal.
  replace (Z.of_nat n) with (Z.succ (Z.of_nat (n - 1))) by lia.
  rewrite Z.pow_succ_r by lia.
  assert (0 < 2 ^ Z.of_nat (n - 1)) by (apply Z.pow_pos_nonneg; lia).
  symmetry. apply Z.div_unique with (r := 1); lia.
Qed.

(** The examined candidates are bitstrings of length [n]. *)
Lemma examined_wf (n : nat) b :
  (1 ≤ n)%nat → b ∈ examined n → length b = n ∧ is_bits b = true.
Proof.
  intros Hn. rewrite examined_pos by done.
  intros (i & -> & Hi)%list_elem_of_fmap. apply elem_of_seqZ in Hi. split.
  - apply length_zero_pad.
    pose proof (length_bin_bound i (n - 1)) as Hlen. lia.
  - apply is_bits_zero_pad, is_bits_bin.
Qed.

(** Every bitstring that starts with 0 is examined. *)
Lemma examined_head_0 b :
  is_bits b = true → ("0"%char :: b) ∈ examined (S (length b)).
Proof.
  intros Hb. rewrite examined_pos by lia. apply list_elem_of_fmap.
  exists (bits_value ("0"%char :: b)). split.
  - symmetry. by apply (zero_pad_bin_bits_value ("0"%char :: b)).
  - apply elem_of_seqZ. simpl. rewrite Nat.sub_0_r.
    pose proof (bits_value_bound b). lia.
Qed.

(** Of a bitstring and its complement, one is examined. *)
Lemma examined_or_complement b :
  is_bits b = true → b ≠ [] →
  b ∈ examined (length b) ∨ complement b ∈ examined (length b).
Proof.
  intros Hb Hne. destruct b as [|c b]; [done|]. simpl in Hb.
  apply andb_true_iff in Hb as [Hc Hb].
  unfold is_bit in Hc. apply orb_true_iff in Hc as [Hc|Hc];
    apply bool_decide_eq_true in Hc; subst c.
  - left. by apply examined_head_0.
  - right. simpl. rewrite <- (complement_length b).
    apply (examined_head_0 (complement b)). by apply complement_is_bits.
Qed.

End Binary.

(** ** The brute-force optimum (C4) *)

Section Optimum.
Context {R : Type} `{FloatOps R}.
Implicit Types g : Graph R.

Lemma fold_result_total {A S} (f : A → S → S) (l : list A) s :
  fold_result (λ x s, Ok (f x s)) l s = Ok (fold_left (λ s x, f x s) l s).
Proof. revert s. induction l as [|x l IH]; intros s; simpl; [done|apply IH]. Qed.

Lemma fold_left_fmap_l {A B S} (f : S → B → S) (h : A → B) (l : list A) s :
  fold_left f (h <$> l) s = fold_left (λ s x, f s (h x)) l s.
Proof. revert s. induction l as [|x l IH]; intros s; simpl; [done|apply IH]. Qed.

(** On a graph with at least one and at most 1024 vertices, the loop of
    [optimal_score] runs [opt_step] over the examined candidates. *)
Lemma optimal_score_eq g :
  (1 ≤ N g ≤ 1024)%nat → indexable g = true →
  optimal_score g = (Ok (fold_left (opt_step g) (examined (N g)) (0, [])), g).
Proof.
  intros HN Hg. unfold optimal_score. unfold_M.
  rewrite ceil_half_pow2_pos, examined_pos by lia.
  rewrite fold_left_fmap_l.
  rewrite <- (fold_result_total
    (λ i st, opt_step g st (zero_pad (N g) (bin i)))).
  apply for_each_pure. intros i [best best_val] Hi.
  assert (length (zero_pad (N g) (bin i)) = N g) as Hlen.
  { apply (examined_wf (N g)); [lia|]. rewrite examined_pos by lia.
    apply list_elem_of_fmap. by exists i. }
  rewrite get_score_ok by done. unfold opt_step. simpl.
  destruct (best <? _); [done|]. by destruct (_ =? best).
Qed.

(** What the loop computes from a state [(b0, v0)]. *)
Lemma opt_fold_spec g l : ∀ b0 v0,
  let st := fold_left (opt_step g) l (b0, v0) in
  b0 ≤ st.1 ∧
  (∀ x, x ∈ l → score_of g x ≤ st.1) ∧
  (st.1 = b0 ∨ ∃ x, x ∈ l ∧ score_of g x = st.1) ∧
  st.2 = (if bool_decide (st.1 = b0) then v0 else [])
         ++ filter (λ x, score_of g x = st.1) l.
Proof.
  induction l as [|x l IH]; intros b0 v0.
  { simpl. rewrite bool_decide_true by done. rewrite app_nil_r.
    repeat split; [lia| |by left].
    intros x Hx. by apply elem_of_nil in Hx. }
  cbn [fold_left]. cbv zeta.
  assert (opt_step g (b0, v0) x =
          if b0 <? score_of g x then (score_of g x, [x])
          else if score_of g x =? b0 then (b0, v0 ++ [x]) else (b0, v0)) as ->
    by done.
  destruct (Z.ltb_spec b0 (score_of g x)) as [Hlt|Hge];
    [|destruct (Z.eqb_spec (score_of g x) b0) as [Heq|Hneq]].
  - destruct (IH (score_of g x) [x]) as (Hle & Hall & Hatt & Hvals).
    cbv zeta in *. set (st := fold_left (opt_step g) l (score_of g x, [x])) in *.
    split; [lia|]. split; [|split].
    + intros y [->|Hy]%elem_of_cons; [lia|by apply Hall].
    + right. destruct Hatt as [Heq|(y & Hy & Hsy)].
      * exists x. split; [apply list_elem_of_here|lia].
      * exists y. split; [by apply list_elem_of_further|done].
    + rewrite Hvals. rewrite (bool_decide_false (st.1 = b0)) by lia.
      rewrite filter_cons. simpl.
      case_bool_decide as Hbest.
      * rewrite decide_True by lia. done.
      * rewrite decide_False by lia. done.
  - destruct (IH b0 (v0 ++ [x])) as (Hle & Hall & Hatt & Hvals).
    cbv zeta in *. set (st := fold_left (opt_step g) l (b0, v0 ++ [x])) in *.
    split; [lia|]. split; [|split].
    + intros y [->|Hy]%elem_of_cons; [lia|by apply Hall].
    + destruct Hatt as [Hst|(y & Hy & Hsy)]; [by left|].
      right. exists y. split; [by apply list_elem_of_further|done].
    + rewrite Hvals, filter_cons.
      case_bool_decide as Hbest.
      * rewrite decide_True by lia. by rewrite <- app_assoc.
      * rewrite decide_False by lia. done.
  - destruct (IH b0 v0) as (Hle & Hall & Hatt & Hvals).
    cbv zeta in *. set (st := fold_left (opt_step g) l (b0, v0)) in *.
    split; [lia|]. split; [|split].
    + intros y [->|Hy]%elem_of_cons; [lia|by apply Hall].
    + destruct Hatt as [Hst|(y & Hy & Hsy)]; [by left|].
      right. exists y. split; [by apply list_elem_of_further|done].
    + rewrite Hvals, filter_cons. rewrite decide_False by lia. done.
Qed.

(** The all-zero candidate is examined and cuts nothing. *)
Lemma examined_zeros (n : nat) :
  (1 ≤ n)%nat → replicate n "0"%char ∈ examined n.
Proof.
  intros Hn. rewrite examined_pos by done. apply list_elem_of_fmap.
  exists 0. split.
  - unfold zero_pad. simpl.
    replace n with (S (n - 1)) at 1 by lia. apply replicate_S_end.
  - apply elem_of_seqZ.
    assert (0 < 2 ^ Z.of_nat (n - 1)) by (apply Z.pow_pos_nonneg; lia). lia.
Qed.

Lemma score_of_zeros g :
  indexable g = true → score_of g (replicate (N g) "0"%char) = 0.
Proof. intros Hg. apply score_of_eq. by apply cut_result_uniform. Qed.

(** C4, as the code has it: on every graph with at least one and at most
    1024 vertices whose stored edges join valid indices, [optimal_score]
    returns the maximum of the score over all the bitstrings of length [N],
    which some bitstring attains, together with the list of all the
    maximisers among the candidates of index 0 to [ceil(2^N/2) - 1]; the
    graph is unchanged. *)
Theorem optimal_score_optimum g :
  (1 ≤ N g ≤ 1024)%nat → indexable g = true →
  ∃ best best_val,
    optimal_score g = (Ok (best, best_val), g) ∧
    (∀ b : list ascii, length b = N g → get_score b g = (Ok (score_of g b), g)) ∧
    (∀ b, length b = N g → is_bits b = true → score_of g b ≤ best) ∧
    (∃ b, length b = N g ∧ is_bits b = true ∧ score_of g b = best) ∧
    best_val = filter (λ b, score_of g b = best) (examined (N g)).
Proof.
  intros HN Hg. rewrite optimal_score_eq by done.
  destruct (opt_fold_spec g (examined (N g)) 0 []) as (Hle & Hall & Hatt & Hvals).
  cbv zeta in *. destruct (fold_left _ _ _) as [best best_val]. simpl in *.
  exists best, best_val. split; [done|]. split; [|split; [|split]].
  - intros b Hlen. by apply get_score_ok.
  - intros b Hlen Hbits.
    assert (b ≠ []) as Hne by (intros ->; simpl in Hlen; lia).
    destruct (examined_or_complement b Hbits Hne) as [Hb|Hb]; rewrite Hlen in Hb.
    + by apply Hall.
    + rewrite <- score_of_complement. by apply Hall.
  - destruct Hatt as [->|(b & Hb & Hs)].
    + exists (replicate (N g) "0"%char).
      rewrite length_replicate, is_bits_replicate_0, score_of_zeros by done. done.
    + exists b. destruct (examined_wf (N g) b) as [Hlen Hbits]; [lia|done|done].
  - rewrite Hvals. by destruct (bool_decide _).
Qed.

End Optimum.

Lemma optimal_score_optimum_witness :
  (1 ≤ N path3 ≤ 1024)%nat ∧ indexable path3 = true ∧
  ∃ best best_val,
    optimal_score path3 = (Ok (best, best_val), path3) ∧
    (∀ b : list ascii, length b = N path3 →
       get_score b path3 = (Ok (score_of path3 b), path3)) ∧
    (∀ b, length b = N path3 → is_bits b = true → score_of path3 b ≤ best) ∧
    (∃ b, length b = N path3 ∧ is_bits b = true ∧ score_of path3 b = best) ∧
    best_val = filter (λ b, score_of path3 b = best) (examined (N path3)).
Proof.
  split; [vm_compute; lia|]. split; [reflexivity|].
  apply (optimal_score_optimum path3); [vm_compute; lia|reflexivity].
Defined.

(** On [Graph(0, randomize=False)] the only candidate is "0", of length 1,
    which [get_score] refuses, although the empty bitstring scores 0; on
    [Graph(1025, randomize=False)] the float quotient overflows. *)
Lemma optimal_score_outside_domain :
  optimal_score (Graph_init (R:=Q) 0) = (Raise AssertionError, Graph_init 0) ∧
  get_score (str "") (Graph_init (R:=Q) 0) = (Ok 0, Graph_init 0) ∧
  (optimal_score (Graph_init (R:=Q) 1025)).1 = Raise OverflowError.
Proof. repeat split; reflexivity. Qed.

(** * Further properties of the code *)

(** ** Counting the edges cut *)

Section EdgesCut.
Context {R : Type} {A : Type} `{EqDecision A}.
Implicit Types (g : Graph R) (b : list A).

(** [edges_cut] reads the topology and changes nothing. *)
Lemma edges_cut_eq b g : edges_cut b g = (count_result (adj g) b, g).
Proof.
  unfold edges_cut, count_result. unfold_M.
  apply for_each_pure. intros [u row] num _.
  apply for_each_pure. intros [v w] s _. unfold count_step. simpl.
  destruct (getitem b u) as [bu|]; [|done].
  destruct (getitem b v) as [bv|]; [|done].
  by case_bool_decide.
Qed.

Lemma all_weights_edge (P : Z → bool) g u row v w :
  all_weights P g = true → (u, row) ∈ map_to_list (adj g) →
  (v, w) ∈ map_to_list row → P w = true.
Proof.
  intros Hg Hu Hv. unfold all_weights in Hg.
  pose proof (forallb_elem _ _ _ Hg Hu) as Hrow. simpl in Hrow.
  apply (forallb_elem _ _ _ Hrow Hv).
Qed.

(** X1: when every stored weight is 1, [edges_cut] and [get_score] do the
    same on every sequence of length [N]: the number of edges cut is the cut
    weight. *)
Theorem edges_cut_unit_weights g b :
  all_weights (λ w, w =? 1) g = true → length b = N g →
  edges_cut b g = get_score b g.
Proof.
  intros Hw Hlen. rewrite edges_cut_eq, get_score_eq. f_equal.
  unfold count_result, cut_result. rewrite Hlen, Nat.eqb_refl. simpl.
  apply fold_result_ext. intros [u row] num Hu. simpl.
  apply fold_result_ext. intros [v w] s Hv.
  pose proof (all_weights_edge _ _ _ _ _ _ Hw Hu Hv) as Hw1.
  apply Z.eqb_eq in Hw1. subst w. done.
Qed.

End EdgesCut.

(** ** The edge list and the score as a sum *)

Section EdgeList.
Context {R : Type}.
Implicit Types (g : Graph R) (a : gmap Z (gmap Z Z)).

Lemma sum_Z_cons x l : sum_Z (x :: l) = x + sum_Z l.
Proof. done. Qed.

Lemma sum_Z_app l k : sum_Z (l ++ k) = sum_Z l + sum_Z k.
Proof.
  induction l as [|x l IH]; [done|].
  rewrite <- app_comm_cons, !sum_Z_cons, IH. lia.
Qed.

Lemma sum_Z_bind {X Y} (f : Y → Z) (h : X → list Y) (l : list X) :
  sum_Z (f <$> (l ≫= h)) = sum_Z ((λ x, sum_Z (f <$> h x)) <$> l).
Proof.
  induction l as [|x l IH]; [done|].
  rewrite bind_cons, fmap_app, sum_Z_app, IH. done.
Qed.

Lemma sum_Z_bounds (lo hi : Z) (l : list Z) :
  Forall (λ x, lo ≤ x ≤ hi) l →
  lo * Z.of_nat (length l) ≤ sum_Z l ≤ hi * Z.of_nat (length l).
Proof.
  induction 1 as [|x l Hx _ IH]; [simpl; lia|].
  rewrite sum_Z_cons. simpl length. nia.
Qed.

Lemma sum_Z_elem (l : list Z) x :
  Forall (λ y, 0 ≤ y) l → x ∈ l → x ≤ sum_Z l.
Proof.
  induction 1 as [|y l Hy Hl IH]; [by intros ?%elem_of_nil|].
  rewrite sum_Z_cons.
  assert (0 ≤ sum_Z l).
  { clear -Hl. induction Hl as [|z l Hz _ IH]; [done|].
    rewrite sum_Z_cons. lia. }
  intros [->|Hx]%elem_of_cons; [lia|]. specialize (IH Hx). lia.
Qed.

(** A loop that adds a term per item computes a sum. *)
Lemma fold_result_sum {X} (f : X → Z → result Z) (c : X → Z) (l : list X) s :
  (∀ x s, x ∈ l → f x s = Ok (s + c x)) →
  fold_result f l s = Ok (s + sum_Z (c <$> l)).
Proof.
  revert s. induction l as [|x l IH]; intros s Hf.
  { simpl. f_equal. unfold sum_Z. simpl. lia. }
  cbn [fold_result]. rewrite (Hf x s (list_elem_of_here _ _)).
  rewrite IH by (intros y t Hy; apply Hf; by apply list_elem_of_further).
  f_equal. rewrite fmap_cons, sum_Z_cons. lia.
Qed.

(** A loop that appends an item per step computes a map. *)
Lemma fold_result_snoc {X Y} (h : X → Y) (l : list X) (acc : list Y) :
  fold_result (λ x acc, Ok (acc ++ [h x])) l acc = Ok (acc ++ (h <$> l)).
Proof.
  revert acc. induction l as [|x l IH]; intros acc; simpl.
  - by rewrite app_nil_r.
  - rewrite IH. by rewrite <- app_assoc.
Qed.

Lemma get_edges_eq g : get_edges g = (Ok (edge_list (adj g)), g).
Proof.
  unfold get_edges. unfold_M.
  rewrite (for_each_pure
    (λ r edges, fold_result (λ e edges, Ok (edges ++ [(r.1, e.1, e.2)]))
                  (map_to_list r.2) edges)).
  2:{ intros [u row] edges _. apply for_each_pure. by intros [v w] t _. }
  f_equal. unfold edge_list.
  assert (∀ l acc,
    fold_result (λ (r : Z * gmap Z Z) (edges : list (Z * Z * Z)),
      fold_result (λ (e : Z * Z) edges, Ok (edges ++ [(r.1, e.1, e.2)]))
        (map_to_list r.2) edges) l acc =
    Ok (acc ++ (l ≫= λ r, (λ e : Z * Z, (r.1, e.1, e.2)) <$> map_to_list r.2)))
    as Hloop.
  { induction l as [|r l IH]; intros acc; simpl.
    - by rewrite app_nil_r.
    - rewrite (fold_result_snoc (λ e : Z * Z, (r.1, e.1, e.2))).
      rewrite IH. by rewrite <- app_assoc. }
  apply (Hloop _ []).
Qed.

Lemma elem_of_edge_list a u v w :
  (u, v, w) ∈ edge_list a ↔ weight_of a u v = Some w.
Proof.
  unfold edge_list, weight_of. rewrite list_elem_of_bind. split.
  - intros ([u' row] & Hin & Hrow). simpl in Hin.
    apply list_elem_of_fmap in Hin as ([v' w'] & Heq & Hvw). simpl in Heq.
    inversion Heq; subst u' v' w'.
    apply elem_of_map_to_list in Hrow. apply elem_of_map_to_list in Hvw.
    by rewrite Hrow.
  - destruct (a !! u) as [row|] eqn:Hu; simpl; [|done]. intros Hv.
    exists (u, row). split; [|by apply elem_of_map_to_list].
    apply list_elem_of_fmap. exists (v, w). split; [done|].
    by apply elem_of_map_to_list.
Qed.

Lemma length_edge_list g : Z.of_nat (length (edge_list (adj g))) = entry_count g.
Proof.
  unfold entry_count, edge_list. f_equal.
  induction (map_to_list (adj g)) as [|[u row] l IH]; [done|].
  rewrite bind_cons, length_app, IH, length_fmap. simpl.
  by rewrite length_map_to_list.
Qed.

End EdgeList.

Section ScoreSum.
Context {R : Type} {A : Type} `{EqDecision A}.
Implicit Types (g : Graph R) (b : list A).

Lemma fits_edge n (a : gmap Z (gmap Z Z)) u row v w :
  fits n a = true → (u, row) ∈ map_to_list a → (v, w) ∈ map_to_list row →
  in_range n u && in_range n v = true.
Proof.
  intros Ha Hu Hv. unfold fits in Ha.
  pose proof (forallb_elem _ _ _ Ha Hu) as Hrow. simpl in Hrow.
  apply (forallb_elem _ _ _ Hrow Hv).
Qed.

Lemma crosses_getitem b u v :
  in_range (length b) u && in_range (length b) v = true →
  ∃ bu bv, getitem b u = Ok bu ∧ getitem b v = Ok bv ∧
           crosses b u v = bool_decide (bu ≠ bv).
Proof.
  intros [Hu Hv]%andb_true_iff. unfold crosses.
  destruct (getitem_in_range b u Hu) as [bu Hbu].
  destruct (getitem_in_range b v Hv) as [bv Hbv].
  exists bu, bv. by rewrite Hbu, Hbv.
Qed.

(** The nested loops as a sum over the edge list. *)
Lemma nested_sum (f : Z → Z * Z → Z → result Z) (c : Z * Z * Z → Z)
    (a : gmap Z (gmap Z Z)) :
  (∀ u row v w s, (u, row) ∈ map_to_list a → (v, w) ∈ map_to_list row →
     f u (v, w) s = Ok (s + c (u, v, w))) →
  fold_result (λ r s, fold_result (f r.1) (map_to_list r.2) s) (map_to_list a) 0 =
  Ok (sum_Z (c <$> edge_list a)).
Proof.
  intros Hf. unfold edge_list. rewrite sum_Z_bind.
  rewrite (fold_result_sum _
    (λ r, sum_Z (c <$> ((λ e : Z * Z, (r.1, e.1, e.2)) <$> map_to_list r.2)))).
  { done. }
  intros [u row] s Hu. simpl.
  rewrite (fold_result_sum _ (λ e : Z * Z, c (u, e.1, e.2))).
  { by rewrite <- list_fmap_compose. }
  intros [v w] t Hv. exact (Hf u row v w t Hu Hv).
Qed.

Lemma cut_result_sum g b :
  indexable g = true → length b = N g →
  cut_result (N g) (adj g) b = Ok (sum_Z (cut_weight b <$> edge_list (adj g))).
Proof.
  intros Hg Hlen. unfold cut_result. rewrite Hlen, Nat.eqb_refl. simpl.
  apply nested_sum. intros u row v w s Hu Hv.
  destruct (crosses_getitem b u v) as (bu & bv & Hbu & Hbv & Hc).
  { rewrite Hlen. by apply (indexable_edge g u row v w). }
  unfold cut_step, cut_weight. simpl. rewrite Hbu, Hbv, Hc.
  f_equal. case_bool_decide; lia.
Qed.

Lemma count_result_sum g b :
  fits (length b) (adj g) = true →
  count_result (adj g) b =
  Ok (sum_Z ((λ e, if crosses b e.1.1 e.1.2 then 1 else 0) <$> edge_list (adj g))).
Proof.
  intros Hg. unfold count_result.
  apply (nested_sum (count_step b) (λ e, if crosses b e.1.1 e.1.2 then 1 else 0)).
  intros u row v w s Hu Hv.
  destruct (crosses_getitem b u v) as (bu & bv & Hbu & Hbv & Hc).
  { by apply (fits_edge (length b) (adj g) u row v w). }
  unfold count_step. simpl. rewrite Hbu, Hbv, Hc.
  f_equal. case_bool_decide; lia.
Qed.

Lemma sum_Z_indicator {X} (P : X → bool) (l : list X) :
  sum_Z ((λ x, if P x then 1 else 0) <$> l) =
  Z.of_nat (length (filter (λ x, P x = true) l)).
Proof.
  induction l as [|x l IH]; [done|].
  rewrite fmap_cons, sum_Z_cons, IH, filter_cons.
  destruct (P x) eqn:HP.
  - rewrite decide_True by done. simpl length. lia.
  - rewrite decide_False by congruence. lia.
Qed.

(** X2: [edges_cut] checks no length; it needs only that the endpoints of
    the stored edges index its argument. It then returns the number of
    triples of [get_edges] whose endpoints the argument separates, a number
    between 0 and the number of stored entries, and changes nothing. *)
Theorem edges_cut_counts g b :
  fits (length b) (adj g) = true →
  ∃ edges, get_edges g = (Ok edges, g) ∧
    edges_cut b g =
      (Ok (Z.of_nat (length (filter (λ e, crosses b e.1.1 e.1.2 = true) edges))), g) ∧
    0 ≤ Z.of_nat (length (filter (λ e, crosses b e.1.1 e.1.2 = true) edges))
      ≤ entry_count g.
Proof.
  intros Hg. exists (edge_list (adj g)). split; [apply get_edges_eq|].
  rewrite edges_cut_eq, count_result_sum by done.
  rewrite (sum_Z_indicator (λ e : Z * Z * Z, crosses b e.1.1 e.1.2)).
  split; [done|]. rewrite <- length_edge_list.
  pose proof (length_filter (λ e : Z * Z * Z, crosses b e.1.1 e.1.2 = true)
                (edge_list (adj g))). lia.
Qed.

(** X3: on a sequence of length [N], when the stored edges join valid
    indices, [get_score] returns the sum, over the triples (u, v, w) of
    [get_edges], of the weights w of those with [b[u] != b[v]]. *)
Theorem get_score_sums_edges g b :
  indexable g = true → length b = N g →
  ∃ edges, get_edges g = (Ok edges, g) ∧
           get_score b g = (Ok (sum_Z (cut_weight b <$> edges)), g).
Proof.
  intros Hg Hlen. exists (edge_list (adj g)). split; [apply get_edges_eq|].
  by rewrite get_score_eq, cut_result_sum.
Qed.

End ScoreSum.

Lemma edges_cut_counts_witness :
  fits (length (str "0110")) (adj path3) = true ∧
  get_score (str "0110") path3 = (Raise AssertionError, path3) ∧
  edges_cut (str "0110") path3 = (Ok 1, path3) ∧
  ∃ edges, get_edges path3 = (Ok edges, path3) ∧
    edges_cut (str "0110") path3 =
      (Ok (Z.of_nat (length
         (filter (λ e, crosses (str "0110") e.1.1 e.1.2 = true) edges))), path3) ∧
    0 ≤ Z.of_nat (length
         (filter (λ e, crosses (str "0110") e.1.1 e.1.2 = true) edges))
      ≤ entry_count path3.
Proof.
  split; [reflexivity|]. split; [reflexivity|]. split; [reflexivity|].
  apply (edges_cut_counts path3 (str "0110")). reflexivity.
Defined.

Lemma get_score_sums_edges_witness :
  indexable path3 = true ∧ length (str "010") = N path3 ∧
  ∃ edges, get_edges path3 = (Ok edges, path3) ∧
           get_score (str "010") path3 =
             (Ok (sum_Z (cut_weight (str "010") <$> edges)), path3).
Proof.
  split; [reflexivity|]. split; [reflexivity|].
  apply (get_score_sums_edges path3 (str "010")); reflexivity.
Defined.

Lemma edges_cut_unit_weights_witness :
  all_weights (λ w, w =? 1) triangle = true ∧ length (str "011") = N triangle ∧
  edges_cut (str "011") triangle = get_score (str "011") triangle ∧
  get_score (str "011") triangle = (Ok 2, triangle).
Proof.
  split; [reflexivity|]. split; [reflexivity|].
  split; [|reflexivity].
  apply (edges_cut_unit_weights triangle (str "011")); reflexivity.
Defined.

(** ** Edges in, edges out *)

Section EdgesInOut.
Context {R : Type}.
Implicit Types (g : Graph R) (a : gmap Z (gmap Z Z)).

Lemma NoDup_edge_list a : NoDup (edge_list a).
Proof.
  unfold edge_list. apply NoDup_bind.
  - intros [u1 row1] [u2 row2] [[x y] z] H1 H2 Hy1 Hy2. simpl in *.
    apply list_elem_of_fmap in Hy1 as (e1 & Heq1 & _).
    apply list_elem_of_fmap in Hy2 as (e2 & Heq2 & _).
    inversion Heq1; inversion Heq2; subst.
    apply elem_of_map_to_list in H1. apply elem_of_map_to_list in H2.
    f_equal. congruence.
  - intros [u row] _. simpl. apply NoDup_fmap_2_strong; [|apply NoDup_map_to_list].
    intros [v1 w1] [v2 w2] _ _ Heq. simpl in Heq. congruence.
  - apply NoDup_map_to_list.
Qed.

Lemma weight_of_insert a u v w row x y :
  a !! u = Some row →
  weight_of (<[u := <[v := w]> row]> a) x y =
  if bool_decide (x = u ∧ y = v) then Some w else weight_of a x y.
Proof.
  intros Hu. unfold weight_of.
  destruct (decide (x = u)) as [->|Hx].
  - rewrite lookup_insert_eq, Hu. simpl.
    destruct (decide (y = v)) as [->|Hy].
    + rewrite lookup_insert_eq. by rewrite bool_decide_true.
    + rewrite lookup_insert_ne by done. by rewrite bool_decide_false by tauto.
  - rewrite lookup_insert_ne by done. by rewrite bool_decide_false by tauto.
Qed.

(** X4: [get_edges] never raises and changes nothing; the list it returns
    holds exactly the triples (u, v, w) with [adj[u][v] = w], each once, so
    that its length is the number of stored entries. *)
Theorem get_edges_stored g :
  ∃ edges, get_edges g = (Ok edges, g) ∧
    (∀ u v w, (u, v, w) ∈ edges ↔ weight_of (adj g) u v = Some w) ∧
    NoDup edges ∧ Z.of_nat (length edges) = entry_count g.
Proof.
  exists (edge_list (adj g)). split; [apply get_edges_eq|]. split; [|split].
  - intros u v w. apply elem_of_edge_list.
  - apply NoDup_edge_list.
  - apply length_edge_list.
Qed.

(** X5: after [add_edge(u, v, w)] on a vertex [u], [get_edges] lists
    (u, v, w) as the only triple of the pair (u, v), and the triples of the
    other pairs are those listed before the call. *)
Theorem get_edges_after_add_edge g u v w row :
  adj g !! u = Some row →
  ∃ edges g' edges',
    get_edges g = (Ok edges, g) ∧
    add_edge u v w g = (Ok tt, g') ∧
    get_edges g' = (Ok edges', g') ∧
    ∀ x y z, (x, y, z) ∈ edges' ↔
             (x = u ∧ y = v ∧ z = w) ∨ (¬ (x = u ∧ y = v) ∧ (x, y, z) ∈ edges).
Proof.
  intros Hu. eexists (edge_list (adj g)), _, _.
  split; [apply get_edges_eq|]. rewrite add_edge_eq, Hu.
  split; [done|]. split; [apply get_edges_eq|]. simpl.
  intros x y z. rewrite !elem_of_edge_list, (weight_of_insert _ _ _ _ row) by done.
  case_bool_decide as Hxy.
  - destruct Hxy as [-> ->]. split.
    + intros [= ->]. by left.
    + intros [(_ & _ & ->)|[Hno _]]; [done|]. by destruct Hno.
  - split; [by right|]. intros [(-> & -> & _)|[_ Hin]]; [|done]. by destruct Hxy.
Qed.

(** X6: [add_edge(u, v, w)] on a [u] that is no vertex raises [KeyError]
    after the counter was incremented: nothing is stored, and a counter that
    was equal to the number of entries is now one above it. *)
Theorem add_edge_missing_vertex g u v w :
  adj g !! u = None →
  ∃ g', add_edge u v w g = (Raise KeyError, g') ∧
        adj g' = adj g ∧ E g' = E g + 1 ∧
        (E g = entry_count g → E g' = entry_count g' + 1).
Proof.
  intros Hu. rewrite add_edge_eq, Hu. eexists. split; [done|].
  simpl. split; [done|]. split; [done|]. unfold entry_count. simpl. lia.
Qed.

(** X7: a second [add_edge] on the same ordered pair replaces the weight:
    the adjacency is the one that the second call alone would give, while
    the counter has counted both calls. *)
Theorem add_edge_overwrites g u v w1 w2 row :
  adj g !! u = Some row →
  ∃ g2, (add_edge u v w1;; add_edge u v w2) g = (Ok tt, g2) ∧
        adj g2 = adj (add_edge u v w2 g).2 ∧
        weight_of (adj g2) u v = Some w2 ∧
        E g2 = E g + 2.
Proof.
  intros Hu. unfold_M. rewrite (add_edge_eq u v w1 g), Hu.
  rewrite !add_edge_eq, Hu. simpl. rewrite lookup_insert_eq.
  eexists. split; [done|]. simpl.
  rewrite !insert_insert_eq. split; [done|]. split; [|lia].
  unfold weight_of. rewrite lookup_insert_eq. simpl. apply lookup_insert_eq.
Qed.

(** In the model, where the adjacency is a map without insertion order, two
    [add_edge] calls on different ordered pairs of vertices end in the same
    state. *)
Lemma add_edge_swap g u1 v1 w1 u2 v2 w2 row1 row2 :
  adj g !! u1 = Some row1 → adj g !! u2 = Some row2 →
  ¬ (u1 = u2 ∧ v1 = v2) →
  (add_edge u1 v1 w1;; add_edge u2 v2 w2) g =
  (add_edge u2 v2 w2;; add_edge u1 v1 w1) g.
Proof.
  intros H1 H2 Hne. unfold_M.
  rewrite (add_edge_eq u1 v1 w1 g), (add_edge_eq u2 v2 w2 g), H1, H2.
  rewrite !add_edge_eq. simpl.
  destruct (decide (u1 = u2)) as [->|Hu].
  - assert (row1 = row2) as -> by congruence.
    rewrite !lookup_insert_eq. simpl. rewrite !insert_insert_eq.
    assert (v1 ≠ v2) by (intros ->; by apply Hne).
    by rewrite (insert_insert_ne row2 v1 v2).
  - rewrite !lookup_insert_ne, H1, H2 by done. simpl.
    by rewrite (insert_insert_ne (adj g) u1 u2).
Qed.

(** X8: two [add_edge] calls on different ordered pairs of vertices commute
    up to the insertion order of the dictionaries: in either order both
    calls succeed, and the two graphs have the same attributes, the same
    rows and the same weight for every ordered pair, so that [get_edges]
    lists the same triples, possibly in another order, and [get_score]
    returns or raises the same on every bitstring. *)
Theorem add_edge_commutes g u1 v1 w1 u2 v2 w2 row1 row2 :
  adj g !! u1 = Some row1 → adj g !! u2 = Some row2 →
  ¬ (u1 = u2 ∧ v1 = v2) →
  ∃ g12 g21 edges12 edges21,
    (add_edge u1 v1 w1;; add_edge u2 v2 w2) g = (Ok tt, g12) ∧
    (add_edge u2 v2 w2;; add_edge u1 v1 w1) g = (Ok tt, g21) ∧
    same_entries g12 g21 ∧
    get_edges g12 = (Ok edges12, g12) ∧ get_edges g21 = (Ok edges21, g21) ∧
    edges12 ≡ₚ edges21 ∧
    ∀ b : list ascii, (get_score b g12).1 = (get_score b g21).1.
Proof.
  intros H1 H2 Hne.
  pose proof (add_edge_swap g u1 v1 w1 u2 v2 w2 row1 row2 H1 H2 Hne) as Hswap.
  assert (∃ g12, (add_edge u1 v1 w1;; add_edge u2 v2 w2) g = (Ok tt, g12))
    as [g12 H12].
  { unfold_M. rewrite (add_edge_eq u1 v1 w1 g), H1, add_edge_eq. simpl.
    destruct (decide (u1 = u2)) as [->|Hu].
    - rewrite lookup_insert_eq. by eexists.
    - rewrite lookup_insert_ne, H2 by done. by eexists. }
  exists g12, g12, (edge_list (adj g12)), (edge_list (adj g12)).
  split; [done|]. split; [by rewrite <- Hswap|].
  split; [by repeat split|]. by rewrite get_edges_eq.
Qed.

End EdgesInOut.

Lemma get_edges_after_add_edge_witness :
  adj path3 !! 2 = Some ∅ ∧
  ∃ edges g' edges',
    get_edges path3 = (Ok edges, path3) ∧
    add_edge 2 0 4 path3 = (Ok tt, g') ∧
    get_edges g' = (Ok edges', g') ∧
    ∀ x y z, (x, y, z) ∈ edges' ↔
             (x = 2 ∧ y = 0 ∧ z = 4) ∨ (¬ (x = 2 ∧ y = 0) ∧ (x, y, z) ∈ edges).
Proof.
  split; [reflexivity|].
  apply (get_edges_after_add_edge path3 2 0 4 ∅). reflexivity.
Defined.

Lemma add_edge_missing_vertex_witness :
  adj path3 !! 3 = None ∧ E path3 = entry_count path3 ∧
  ∃ g', add_edge 3 0 9 path3 = (Raise KeyError, g') ∧
        adj g' = adj path3 ∧ E g' = E path3 + 1 ∧
        (E path3 = entry_count path3 → E g' = entry_count g' + 1).
Proof.
  split; [reflexivity|]. split; [reflexivity|].
  apply (add_edge_missing_vertex path3 3 0 9). reflexivity.
Defined.

Lemma add_edge_overwrites_witness :
  adj path3 !! 0 = Some {[1 := 5]} ∧
  ∃ g2, (add_edge 0 1 7;; add_edge 0 1 2) path3 = (Ok tt, g2) ∧
        adj g2 = adj (add_edge 0 1 2 path3).2 ∧
        weight_of (adj g2) 0 1 = Some 2 ∧
        E g2 = E path3 + 2.
Proof.
  split; [reflexivity|].
  apply (add_edge_overwrites path3 0 1 7 2 {[1 := 5]}). reflexivity.
Defined.

Lemma add_edge_commutes_witness :
  adj path3 !! 0 = Some {[1 := 5]} ∧ ¬ (0 = 0 ∧ 2 = 0) ∧
  ∃ g12 g21 edges12 edges21,
    (add_edge 0 2 1;; add_edge 0 0 6) path3 = (Ok tt, g12) ∧
    (add_edge 0 0 6;; add_edge 0 2 1) path3 = (Ok tt, g21) ∧
    same_entries g12 g21 ∧
    get_edges g12 = (Ok edges12, g12) ∧ get_edges g21 = (Ok edges21, g21) ∧
    edges12 ≡ₚ edges21 ∧
    ∀ b : list ascii, (get_score b g12).1 = (get_score b g21).1.
Proof.
  split; [reflexivity|]. split; [lia|].
  apply (add_edge_commutes path3 0 2 1 0 0 6 {[1 := 5]} {[1 := 5]});
    [reflexivity|reflexivity|lia].
Defined.

(** ** More on the tracker *)

Section TrackerMore.
Context {R : Type} `{FloatOps R}.
Implicit Types g : Graph R.

Lemma best_le_antisym a b : best_le a b → best_le b a → a = b.
Proof. destruct a, b; simpl; try done. intros. f_equal. lia. Qed.

Lemma extends_refl g : extends g g.
Proof. repeat split; try done. apply best_le_refl. Qed.

Lemma extends_trans g1 g2 g3 : extends g1 g2 → extends g2 g3 → extends g1 g3.
Proof.
  intros (HN1 & HE1 & Ha1 & Hle1 & Hb1 & Hr1) (HN2 & HE2 & Ha2 & Hle2 & Hb2 & Hr2).
  repeat split; try congruence.
  - by eapply best_le_trans.
  - intros Heq.
    assert (currentScore g2 = currentScore g1) as H12.
    { apply best_le_antisym; [by rewrite <- Heq|done]. }
    rewrite Hb2, Hb1 by congruence. done.
  - by etrans.
Qed.

Lemma for_each_extends {X S} (l : list X) (body : X → S → M R S) s g :
  (∀ x s g, extends g (body x s g).2) → extends g (for_each l body s g).2.
Proof.
  intros Hbody. revert s g. induction l as [|x l IH]; intros s g; simpl.
  { apply extends_refl. }
  unfold_M. pose proof (Hbody x s g) as Hx.
  destruct (body x s g) as [[s'|e] g1]; simpl in Hx; [|done].
  eapply extends_trans; [exact Hx|apply IH].
Qed.

Lemma update_score_extends b g : extends g (update_score b g).2.
Proof.
  rewrite update_score_eq. destruct (cut_result _ _ _) as [s|]; [|apply extends_refl].
  simpl. destruct (exceeds s (currentScore g)) eqn:Hex; [|apply extends_refl].
  repeat split; simpl; try done.
  - destruct (currentScore g) as [|c]; simpl in *; [done|].
    apply Z.ltb_lt in Hex. lia.
  - intros Heq. rewrite <- Heq in Hex. simpl in Hex.
    apply Z.ltb_lt in Hex. lia.
Qed.

Lemma add_run_extends gamma beta e g : extends g (add_run gamma beta e g).2.
Proof.
  repeat split; simpl; try done; [apply best_le_refl|]. by apply prefix_app_r.
Qed.

Lemma expectation_step_extends n o (e : R) g :
  extends g (expectation_step n o e g).2.
Proof.
  destruct o as [b c]. unfold expectation_step. unfold_M.
  destruct (to_float c) as [fc|]; [|apply extends_refl].
  destruct (to_float n) as [fn|]; [|apply extends_refl].
  destruct (n =? 0); [apply extends_refl|].
  pose proof (update_score_extends b g) as Hu.
  destruct (update_score b g) as [[s|err] g1]; [|done].
  by destruct (to_float s).
Qed.

Lemma get_expectation_extends x d n g : extends g (get_expectation x d n g).2.
Proof.
  rewrite get_expectation_eq.
  pose proof (for_each_extends d (expectation_step n) (of_int 0) g
                (expectation_step_extends n)) as Hloop.
  destruct (for_each d (expectation_step n) (of_int 0) g) as [[e|err] g1]; [|done].
  eapply extends_trans; [exact Hloop|apply add_run_extends].
Qed.

Lemma perform_extends c g : extends g (perform c g).2.
Proof.
  destruct c as [b|gamma beta e|x d n]; unfold perform; unfold_M.
  - pose proof (update_score_extends b g) as Hu.
    by destruct (update_score b g) as [[s|err] g1].
  - pose proof (add_run_extends gamma beta e g) as Hu.
    by destruct (add_run gamma beta e g) as [[s|err] g1].
  - pose proof (get_expectation_extends x d n g) as Hu.
    by destruct (get_expectation x d n g) as [[s|err] g1].
Qed.

Lemma after_calls_extends cs g : extends g (after_calls cs g).
Proof.
  revert g. induction cs as [|c cs IH]; intros g; simpl.
  - apply extends_refl.
  - eapply extends_trans; [apply perform_extends|apply IH].
Qed.

(** X9: whatever [update_score], [add_run] and [get_expectation] calls are
    made, whether they return or raise, the topology and the edge counter
    stay as they are, [currentScore] never decreases, [currentBest] changes
    only when [currentScore] does, and [runs] is only extended at its end. *)
Theorem calls_grow_tracker cs g :
  N (after_calls cs g) = N g ∧ E (after_calls cs g) = E g ∧
  adj (after_calls cs g) = adj g ∧
  best_le (currentScore g) (currentScore (after_calls cs g)) ∧
  (currentScore (after_calls cs g) = currentScore g →
   currentBest (after_calls cs g) = currentBest g) ∧
  runs g `prefix_of` runs (after_calls cs g).
Proof. apply after_calls_extends. Qed.

(** The tracker after a sequence of accepted [update_score] calls. *)
Lemma update_score_seq_track bs g :
  indexable g = true → Forall (λ b, length b = N g) bs →
  ∃ g', update_score_seq bs g = (Ok (score_of g <$> bs), g') ∧
        N g' = N g ∧ adj g' = adj g ∧
        (currentScore g', currentBest g') =
          foldl (track g) (currentScore g, currentBest g) bs.
Proof.
  revert g. induction bs as [|b bs IH]; intros g Hg Hbs.
  { by exists g. }
  apply Forall_cons in Hbs as [Hb Hbs].
  destruct (cut_result_ok b g Hg Hb) as [s Hs].
  pose proof (score_of_eq _ _ _ Hs) as Hsc.
  set (g1 := if exceeds s (currentScore g)
             then set_currentBest b (set_currentScore (Score s) g) else g).
  assert (N g1 = N g ∧ adj g1 = adj g) as [HN1 Hadj1].
  { unfold g1. by destruct (exceeds s (currentScore g)). }
  destruct (IH g1) as (g' & Hrun & HN & Hadj & Htrack).
  { by rewrite (indexable_topology g g1). }
  { by rewrite HN1. }
  exists g'. cbn [update_score_seq foldl]. unfold_M.
  rewrite update_score_eq, Hs. fold g1. rewrite Hrun.
  rewrite (list_fmap_ext (score_of g1) (score_of g) bs)
    by (intros; by apply score_of_topology).
  rewrite fmap_cons, Hsc. split; [done|]. split; [congruence|]. split; [congruence|].
  rewrite Htrack.
  assert (track g (currentScore g, currentBest g) b =
          (currentScore g1, currentBest g1)) as ->.
  { unfold track, g1. cbn [fst snd]. rewrite Hsc.
    by destruct (exceeds s (currentScore g)). }
  assert (∀ st, foldl (track g1) st bs = foldl (track g) st bs) as ->.
  { clear -HN1 Hadj1. intros st. revert st. induction bs as [|x bs IHbs]; intros st.
    - done.
    - simpl. rewrite IHbs. f_equal. unfold track.
      by rewrite (score_of_topology g g1). }
  done.
Qed.

Lemma track_fold_below g sb l st :
  exceeds sb st.1 = true → (∀ x, x ∈ l → score_of g x < sb) →
  exceeds sb (foldl (track g) st l).1 = true.
Proof.
  revert st. induction l as [|x l IH]; intros st Hst Hl; [done|].
  simpl. apply IH.
  - unfold track. destruct (exceeds (score_of g x) st.1); [|done].
    simpl. apply Z.ltb_lt. apply Hl. apply list_elem_of_here.
  - intros y Hy. apply Hl. by apply list_elem_of_further.
Qed.

Lemma track_fold_keeps g sb b l :
  (∀ x, x ∈ l → score_of g x ≤ sb) →
  foldl (track g) (Score sb, b) l = (Score sb, b).
Proof.
  induction l as [|x l IH]; intros Hl; [done|].
  simpl. unfold track at 2. simpl.
  destruct (Z.ltb_spec sb (score_of g x)) as [Hlt|_].
  - specialize (Hl x (list_elem_of_here _ _)). lia.
  - apply IH. intros y Hy. apply Hl. by apply list_elem_of_further.
Qed.

(** X10: ties do not replace the best: when a sequence of [update_score]
    calls passes a bitstring [b] that scores more than the current best and
    than every bitstring before it, and at least as much as every bitstring
    after it, [currentBest] ends as [b], the first to reach the maximum. *)
Theorem update_score_keeps_first g l1 b l2 :
  indexable g = true → Forall (λ x, length x = N g) (l1 ++ b :: l2) →
  exceeds (score_of g b) (currentScore g) = true →
  (∀ x, x ∈ l1 → score_of g x < score_of g b) →
  (∀ x, x ∈ l2 → score_of g x ≤ score_of g b) →
  ∃ g', update_score_seq (l1 ++ b :: l2) g =
          (Ok (score_of g <$> (l1 ++ b :: l2)), g') ∧
        currentScore g' = Score (score_of g b) ∧ currentBest g' = b.
Proof.
  intros Hg Hlen Hex H1 H2.
  destruct (update_score_seq_track (l1 ++ b :: l2) g Hg Hlen)
    as (g' & Hrun & _ & _ & Htrack).
  exists g'. split; [done|].
  rewrite foldl_app in Htrack. cbn [foldl] in Htrack.
  pose proof (track_fold_below g (score_of g b) l1
                (currentScore g, currentBest g) Hex H1) as Hbelow.
  unfold track at 2 in Htrack. rewrite Hbelow in Htrack.
  rewrite track_fold_keeps in Htrack by done.
  by inversion Htrack.
Qed.

End TrackerMore.

Lemma update_score_keeps_first_witness :
  indexable path3 = true ∧
  Forall (λ x, length x = N path3) ([str "001"] ++ str "011" :: [str "100"; str "000"]) ∧
  exceeds (score_of path3 (str "011")) (currentScore path3) = true ∧
  score_of path3 (str "011") = 5 ∧ score_of path3 (str "100") = 5 ∧
  ∃ g', update_score_seq ([str "001"] ++ str "011" :: [str "100"; str "000"]) path3 =
          (Ok (score_of path3 <$> ([str "001"] ++ str "011" :: [str "100"; str "000"])), g') ∧
        currentScore g' = Score (score_of path3 (str "011")) ∧
        currentBest g' = str "011".
Proof.
  split; [reflexivity|]. split; [repeat constructor|].
  split; [reflexivity|]. split; [reflexivity|]. split; [reflexivity|].
  apply (update_score_keeps_first path3 [str "001"] (str "011") [str "100"; str "000"]).
  - reflexivity.
  - repeat constructor.
  - reflexivity.
  - intros x ->%list_elem_of_singleton. vm_compute. reflexivity.
  - intros x [->|[->|[]%elem_of_nil]%elem_of_cons]%elem_of_cons; vm_compute; discriminate.
Defined.

(** ** The evaluation as a sequence of registrations *)

Section Registration.
Context {R : Type} `{FloatOps R}.
Implicit Types g : Graph R.









End Registration.



(** ** More on the brute-force optimum *)

Section OptimumMore.
Context {R : Type} `{FloatOps R}.
Implicit Types g : Graph R.

(** The numeral of a number denotes that number. *)
Lemma bits_value_bin_pos p : bits_value (bin_pos p []) = Z.pos p.
Proof.
  induction p as [p IH|p IH|]; simpl; [| |done].
  - rewrite bin_pos_app, bits_value_snoc, IH. simpl. lia.
  - rewrite bin_pos_app, bits_value_snoc, IH. simpl. lia.
Qed.

Lemma bits_value_replicate_0 k b :
  bits_value (replicate k "0"%char ++ b) = bits_value b.
Proof. induction k as [|k IH]; simpl; [done|]. by rewrite IH. Qed.

Lemma bits_value_zero_pad n i : 0 ≤ i → bits_value (zero_pad n (bin i)) = i.
Proof.
  intros Hi. unfold zero_pad. rewrite bits_value_replicate_0.
  destruct i as [|p|p]; [done| |lia]. apply bits_value_bin_pos.
Qed.

Lemma NoDup_examined (n : nat) : NoDup (examined n).
Proof.
  unfold examined. apply NoDup_fmap_2_strong; [|apply NoDup_seqZ].
  intros i j Hi Hj Heq. apply elem_of_seqZ in Hi. apply elem_of_seqZ in Hj.
  rewrite <- (bits_value_zero_pad n i), <- (bits_value_zero_pad n j) by lia.
  by rewrite Heq.
Qed.

(** The examined candidates put the vertex 0 on the side "0". *)
Lemma examined_head (n : nat) b :
  (1 ≤ n)%nat → b ∈ examined n → head b = Some "0"%char.
Proof.
  intros Hn. rewrite examined_pos by done.
  intros (i & -> & Hi)%list_elem_of_fmap. apply elem_of_seqZ in Hi.
  unfold zero_pad. destruct i as [|p|p]; [| |lia].
  - simpl. destruct (n - 1)%nat; done.
  - pose proof (length_bin_bound (Z.pos p) (n - 1)) as Hlen.
    assert (Z.pos p < 2 ^ Z.of_nat (n - 1)) as Hp by lia.
    pose proof (size_nat_bound p (n - 1) Hp) as Hsize.
    simpl bin. rewrite length_bin_pos. simpl length.
    destruct (n - (Pos.size_nat p + 0))%nat as [|k] eqn:Hk; [lia|done].
Qed.

(** What [optimal_score] returns, in terms of the loop. *)
Lemma optimal_score_loop g :
  (1 ≤ N g ≤ 1024)%nat → indexable g = true →
  ∃ best best_val,
    optimal_score g = (Ok (best, best_val), g) ∧
    (∀ b, length b = N g → is_bits b = true → score_of g b ≤ best) ∧
    (∃ b, b ∈ examined (N g) ∧ score_of g b = best) ∧
    best_val = filter (λ b, score_of g b = best) (examined (N g)).
Proof.
  intros HN Hg. rewrite optimal_score_eq by done.
  destruct (opt_fold_spec g (examined (N g)) 0 []) as (Hle & Hall & Hatt & Hvals).
  cbv zeta in *. destruct (fold_left _ _ _) as [best best_val]. simpl in *.
  exists best, best_val. split; [done|]. split; [|split].
  - intros b Hlen Hbits.
    assert (b ≠ []) as Hne by (intros ->; simpl in Hlen; lia).
    destruct (examined_or_complement b Hbits Hne) as [Hb|Hb]; rewrite Hlen in Hb.
    + by apply Hall.
    + rewrite <- score_of_complement. by apply Hall.
  - destruct Hatt as [->|(b & Hb & Hs)]; [|by exists b].
    exists (replicate (N g) "0"%char). split; [apply examined_zeros; lia|].
    by apply score_of_zeros.
  - rewrite Hvals. by destruct (bool_decide _).
Qed.

Lemma for_each_state {X S} (P : Graph R → Prop) (l : list X)
    (body : X → S → M R S) s g :
  (∀ x s g, x ∈ l → P g → P (body x s g).2) → P g → P (for_each l body s g).2.
Proof.
  revert s g. induction l as [|x l IH]; intros s g Hbody Hg; [done|].
  cbn [for_each]. unfold_M.
  pose proof (Hbody x s g (list_elem_of_here _ _) Hg) as Hx.
  destruct (body x s g) as [[s'|err] g1]; [|done]. simpl in Hx.
  apply IH; [|done]. intros y t g' Hy. apply Hbody. by apply list_elem_of_further.
Qed.

Lemma update_score_scored g0 b g :
  (length b = N g0 → is_bits b = true) →
  scored_by_bits g0 g → scored_by_bits g0 (update_score b g).2.
Proof.
  intros Hb (HN & Hadj & Hs). rewrite update_score_eq.
  destruct (cut_result (N g) (adj g) b) as [s|] eqn:Hcut; [|done].
  simpl. destruct (exceeds s (currentScore g)); [|done].
  split; [done|]. split; [done|]. right. exists b.
  assert (length b = N g0) as Hlen.
  { unfold cut_result in Hcut.
    destruct (Nat.eqb_spec (length b) (N g)); [congruence|done]. }
  split; [done|]. split; [by apply Hb|]. simpl.
  by rewrite <- (score_of_topology g0 g), (score_of_eq b g s).
Qed.

Lemma perform_scored g0 c g :
  Forall (λ b, length b = N g0 → is_bits b = true) (call_strings c) →
  scored_by_bits g0 g → scored_by_bits g0 (perform c g).2.
Proof.
  intros Hc Hg. destruct c as [b|gamma beta e|x d n]; unfold perform; unfold_M.
  - apply Forall_cons in Hc as [Hb _].
    pose proof (update_score_scored g0 b g Hb Hg) as Hu.
    by destruct (update_score b g) as [[s|err] g1].
  - done.
  - assert (scored_by_bits g0 (get_expectation x d n g).2) as Hu;
      [|by destruct (get_expectation x d n g) as [[e|err] g1]].
    rewrite get_expectation_eq.
    assert (scored_by_bits g0 (for_each d (expectation_step n) (of_int 0) g).2)
      as Hloop; [|by destruct (for_each d _ _ g) as [[e|err] g1]].
    apply for_each_state; [|done].
    intros [b c] e g' Hin Hg'. unfold expectation_step. unfold_M.
    destruct (to_float c); [|done]. destruct (to_float n); [|done].
    destruct (n =? 0); [done|].
    assert (length b = N g0 → is_bits b = true) as Hb.
    { simpl in Hc. rewrite Forall_forall in Hc. apply Hc.
      apply list_elem_of_fmap. by exists (b, c). }
    pose proof (update_score_scored g0 b g' Hb Hg') as Hu.
    destruct (update_score b g') as [[s|err] g2]; [|done].
    by destruct (to_float s).
Qed.

Lemma after_calls_scored g0 cs g :
  Forall (λ b, length b = N g0 → is_bits b = true) (cs ≫= call_strings) →
  scored_by_bits g0 g → scored_by_bits g0 (after_calls cs g).
Proof.
  revert g. induction cs as [|c cs IH]; intros g Hcs Hg; [done|].
  rewrite bind_cons in Hcs. apply Forall_app in Hcs as [Hc Hcs].
  simpl. apply IH; [done|]. by apply perform_scored.
Qed.

(** X12: the best found never exceeds the optimum: starting from a reset
    tracker, after any [update_score], [add_run] and [get_expectation]
    calls, whether they return or raise, whose bitstrings with one character
    per vertex consist of '0' and '1' characters, [currentScore] is at most
    the score that [optimal_score] returns. *)
Theorem best_found_below_optimum g cs :
  tracker_reset g → (1 ≤ N g ≤ 1024)%nat → indexable g = true →
  Forall (λ b, length b = N g → is_bits b = true) (cs ≫= call_strings) →
  ∃ best best_val,
    optimal_score (after_calls cs g) = (Ok (best, best_val), after_calls cs g) ∧
    best_le (currentScore (after_calls cs g)) (Score best).
Proof.
  intros (Hreset & _ & _) HN Hg Hcs.
  destruct (after_calls_scored g cs g Hcs) as (HN' & Hadj' & Hs).
  { split; [done|]. split; [done|]. by left. }
  destruct (optimal_score_loop (after_calls cs g))
    as (best & best_val & Hopt & Hub & _).
  { by rewrite HN'. }
  { by rewrite (indexable_topology g (after_calls cs g)). }
  exists best, best_val. split; [done|].
  destruct Hs as [->|(b & Hlen & Hbits & ->)]; [done|].
  simpl. rewrite <- (score_of_topology g (after_calls cs g)) by done.
  apply Hub; [congruence|done].
Qed.

(** X13: the list of solutions that [optimal_score] returns is never empty,
    holds no bitstring twice, and each of its bitstrings has one character
    '0' or '1' per vertex, starts with '0' and has the returned score. *)
Theorem optimal_score_solutions g :
  (1 ≤ N g ≤ 1024)%nat → indexable g = true →
  ∃ best best_val,
    optimal_score g = (Ok (best, best_val), g) ∧
    best_val ≠ [] ∧ NoDup best_val ∧
    ∀ b, b ∈ best_val →
         length b = N g ∧ is_bits b = true ∧ head b = Some "0"%char ∧
         get_score b g = (Ok best, g).
Proof.
  intros HN Hg.
  destruct (optimal_score_loop g HN Hg)
    as (best & best_val & Hopt & _ & (b0 & Hb0 & Hs0) & ->).
  exists best, (filter (λ b, score_of g b = best) (examined (N g))).
  split; [done|]. split; [|split].
  - intros Hnil. assert (b0 ∈ filter (λ b, score_of g b = best) (examined (N g))) as Hin.
    { by apply list_elem_of_filter. }
    rewrite Hnil in Hin. by apply elem_of_nil in Hin.
  - apply NoDup_filter, NoDup_examined.
  - intros b [Hs Hb]%list_elem_of_filter.
    destruct (examined_wf (N g) b) as [Hlen Hbits]; [lia|done|].
    split; [done|]. split; [done|]. split; [apply (examined_head (N g)); [lia|done]|].
    rewrite <- Hs. by apply get_score_ok.
Qed.

(** X14: outside that range [optimal_score] raises, whatever the edges, and
    leaves the graph as it is: on a graph without vertices the only
    candidate is "0", which [get_score] refuses with [AssertionError], and
    with more than 1024 vertices the float division overflows. *)
Theorem optimal_score_raises g :
  (N g = 0%nat → optimal_score g = (Raise AssertionError, g)) ∧
  ((1024 < N g)%nat → optimal_score g = (Raise OverflowError, g)).
Proof.
  split; intros HN; unfold optimal_score; unfold_M.
  - rewrite HN. change (ceil_half_pow2 0) with (Ok 1). cbn beta iota.
    change (seqZ 0 1) with [0]. cbn [for_each]. unfold_M.
    rewrite get_score_eq, HN. by rewrite cut_result_wrong_length.
  - unfold ceil_half_pow2. destruct (Z.ltb_spec 1024 (Z.of_nat (N g))); [done|lia].
Qed.

End OptimumMore.

Section Weights.
Context {R : Type} `{FloatOps R}.
Implicit Types g : Graph R.

Lemma edge_list_rows (a : gmap Z (gmap Z Z)) u v w :
  (u, v, w) ∈ edge_list a →
  ∃ row, (u, row) ∈ map_to_list a ∧ (v, w) ∈ map_to_list row.
Proof.
  unfold edge_list. rewrite list_elem_of_bind.
  intros ([u' row] & Hin & Hrow). simpl in Hin.
  apply list_elem_of_fmap in Hin as ([v' w'] & Heq & Hvw). simpl in Heq.
  inversion Heq; subst u' v' w'. by exists row.
Qed.

Lemma edge_list_nil_rows (a : gmap Z (gmap Z Z)) r :
  edge_list a = [] → r ∈ map_to_list a → map_to_list r.2 = [].
Proof.
  unfold edge_list. induction (map_to_list a) as [|r' l IH]; [by intros _ ?%elem_of_nil|].
  rewrite bind_cons. intros [Hr' Hl]%app_eq_nil [->|Hr]%elem_of_cons.
  - by apply fmap_nil_inv in Hr'.
  - by apply IH.
Qed.

Lemma filter_all {X} (P : X → Prop) `{∀ x, Decision (P x)} (l : list X) :
  (∀ x, x ∈ l → P x) → filter P l = l.
Proof.
  induction l as [|x l IH]; intros Hl; [done|].
  rewrite filter_cons, decide_True by (apply Hl, list_elem_of_here).
  f_equal. apply IH. intros y Hy. by apply Hl, list_elem_of_further.
Qed.

Lemma sum_Z_le {X} (f h : X → Z) (l : list X) :
  (∀ x, x ∈ l → f x ≤ h x) → sum_Z (f <$> l) ≤ sum_Z (h <$> l).
Proof.
  induction l as [|x l IH]; intros Hl; [done|].
  rewrite !fmap_cons, !sum_Z_cons.
  pose proof (Hl x (list_elem_of_here _ _)).
  assert (sum_Z (f <$> l) ≤ sum_Z (h <$> l))
    by (apply IH; intros y Hy; by apply Hl, list_elem_of_further).
  lia.
Qed.

(** X15: on a graph without edges every candidate scores 0: [optimal_score]
    returns 0 with the whole examined half, 2^(N-1) bitstrings. *)
Theorem optimal_score_no_edges g :
  edge_list (adj g) = [] → (1 ≤ N g ≤ 1024)%nat →
  optimal_score g = (Ok (0, examined (N g)), g) ∧
  Z.of_nat (length (examined (N g))) = 2 ^ Z.of_nat (N g - 1).
Proof.
  intros Hnil HN.
  assert (indexable g = true) as Hg.
  { unfold indexable. apply forallb_forall. intros [u row] Hin.
    apply list_elem_of_In in Hin.
    pose proof (edge_list_nil_rows (adj g) (u, row) Hnil Hin) as Hrow.
    simpl in Hrow. by rewrite Hrow. }
  assert (∀ b : list ascii, length b = N g → score_of g b = 0) as Hzero.
  { intros b Hlen. apply score_of_eq. by rewrite cut_result_sum, Hnil. }
  split.
  - destruct (optimal_score_loop g HN Hg)
      as (best & best_val & Hopt & _ & (b0 & Hb0 & Hs0) & ->).
    rewrite Hopt.
    assert (best = 0) as ->.
    { rewrite <- Hs0. apply Hzero. by apply (examined_wf (N g)); [lia|]. }
    do 3 f_equal. apply filter_all. intros b Hb.
    apply Hzero. by apply (examined_wf (N g)); [lia|].
  - rewrite examined_pos, length_fmap, length_seqZ by lia.
    assert (0 < 2 ^ Z.of_nat (N g - 1)) by (apply Z.pow_pos_nonneg; lia). lia.
Qed.

(** X16: when no stored weight is negative, the score of a sequence of
    length [N] lies between 0 and the sum of the weights of all the triples
    of [get_edges]. *)
Theorem get_score_bounds {A} `{EqDecision A} g (b : list A) :
  all_weights (λ w, 0 <=? w) g = true → indexable g = true → length b = N g →
  ∃ s edges, get_score b g = (Ok s, g) ∧ get_edges g = (Ok edges, g) ∧
             0 ≤ s ≤ sum_Z (edges.*2).
Proof.
  intros Hw Hg Hlen.
  exists (sum_Z (cut_weight b <$> edge_list (adj g))), (edge_list (adj g)).
  split; [by rewrite get_score_eq, cut_result_sum|].
  split; [apply get_edges_eq|].
  assert (∀ e, e ∈ edge_list (adj g) → 0 ≤ e.2) as Hpos.
  { intros [[u v] w] (row & Hu & Hv)%edge_list_rows. simpl.
    pose proof (all_weights_edge _ _ _ _ _ _ Hw Hu Hv) as H0.
    by apply Z.leb_le in H0. }
  split.
  - pose proof (sum_Z_le (λ _, 0) (cut_weight b) (edge_list (adj g))) as Hle.
    assert (sum_Z ((λ _ : Z * Z * Z, 0) <$> edge_list (adj g)) = 0) as Hz.
    { clear. induction (edge_list (adj g)) as [|e l IH]; [done|].
      by rewrite fmap_cons, sum_Z_cons, IH. }
    rewrite Hz in Hle. apply Hle. intros e He. unfold cut_weight.
    specialize (Hpos e He). by destruct (crosses _ _ _).
  - apply sum_Z_le. intros e He. unfold cut_weight.
    specialize (Hpos e He). destruct (crosses _ _ _); lia.
Qed.

End Weights.

Lemma best_found_below_optimum_witness :
  tracker_reset path3 ∧ (1 ≤ N path3 ≤ 1024)%nat ∧ indexable path3 = true ∧
  Forall (λ b, length b = N path3 → is_bits b = true)
         (replay_calls ≫= call_strings) ∧
  currentScore (after_calls replay_calls path3) = Score 8 ∧
  ∃ best best_val,
    optimal_score (after_calls replay_calls path3) =
      (Ok (best, best_val), after_calls replay_calls path3) ∧
    best_le (currentScore (after_calls replay_calls path3)) (Score best).
Proof.
  assert (Forall (λ b, length b = N path3 → is_bits b = true)
            (replay_calls ≫= call_strings)) as Hbs.
  { apply Forall_forall. intros b Hb _. vm_compute in Hb.
    repeat (apply elem_of_cons in Hb as [->|Hb]; [reflexivity|]).
    by apply elem_of_nil in Hb. }
  split; [done|]. split; [vm_compute; lia|]. split; [reflexivity|]. split; [done|].
  split; [reflexivity|].
  apply (best_found_below_optimum path3 replay_calls);
    [done|vm_compute; lia|reflexivity|done].
Defined.

Lemma optimal_score_solutions_witness :
  (1 ≤ N triangle ≤ 1024)%nat ∧ indexable triangle = true ∧
  optimal_score triangle = (Ok (2, [str "001"; str "010"; str "011"]), triangle) ∧
  ∃ best best_val,
    optimal_score triangle = (Ok (best, best_val), triangle) ∧
    best_val ≠ [] ∧ NoDup best_val ∧
    ∀ b, b ∈ best_val →
         length b = N triangle ∧ is_bits b = true ∧ head b = Some "0"%char ∧
         get_score b triangle = (Ok best, triangle).
Proof.
  split; [vm_compute; lia|]. split; [reflexivity|]. split; [reflexivity|].
  apply (optimal_score_solutions triangle); [vm_compute; lia|reflexivity].
Defined.

Lemma optimal_score_raises_witness :
  N (Graph_init (R:=Q) 0) = 0%nat ∧ (1024 < N (Graph_init (R:=Q) 2000))%nat ∧
  optimal_score (Graph_init (R:=Q) 0) = (Raise AssertionError, Graph_init 0) ∧
  optimal_score (Graph_init (R:=Q) 2000) = (Raise OverflowError, Graph_init 2000).
Proof.
  split; [reflexivity|]. split; [simpl; lia|]. split.
  - apply (optimal_score_raises (Graph_init 0)). reflexivity.
  - apply (optimal_score_raises (Graph_init 2000)). simpl. lia.
Defined.

Lemma optimal_score_no_edges_witness :
  edge_list (adj (Graph_init (R:=Q) 3)) = [] ∧ (1 ≤ N (Graph_init (R:=Q) 3) ≤ 1024)%nat ∧
  optimal_score (Graph_init (R:=Q) 3) =
    (Ok (0, examined (N (Graph_init (R:=Q) 3))), Graph_init 3) ∧
  Z.of_nat (length (examined (N (Graph_init (R:=Q) 3)))) =
    2 ^ Z.of_nat (N (Graph_init (R:=Q) 3) - 1).
Proof.
  split; [reflexivity|]. split; [simpl; lia|].
  apply (optimal_score_no_edges (Graph_init 3)); [reflexivity|simpl; lia].
Defined.

Lemma get_score_bounds_witness :
  all_weights (λ w, 0 <=? w) path3 = true ∧ indexable path3 = true ∧
  length (str "011") = N path3 ∧
  ∃ s edges, get_score (str "011") path3 = (Ok s, path3) ∧
             get_edges path3 = (Ok edges, path3) ∧ 0 ≤ s ≤ sum_Z (edges.*2).
Proof.
  split; [reflexivity|]. split; [reflexivity|]. split; [reflexivity|].
  apply (get_score_bounds path3 (str "011")); reflexivity.
Defined.

(** ** The random constructor *)

Section AllPairs.

Lemma elem_of_pairs_row (x : Z) (l : list Z) (p : Z * Z) :
  p ∈ (l ≫= λ y, if decide (x ≠ y) then [(x, y)] else []) ↔
  p.1 = x ∧ p.2 ∈ l ∧ x ≠ p.2.
Proof.
  rewrite list_elem_of_bind. split.
  - intros (y & Hp & Hy). destruct (decide (x ≠ y)); [|by apply elem_of_nil in Hp].
    apply list_elem_of_singleton in Hp as ->. done.
  - intros (Hx & Hy & Hne). exists p.2. split; [|done].
    rewrite decide_True by done. destruct p as [a b]. simpl in *. subst a.
    apply list_elem_of_here.
Qed.

Lemma elem_of_all_pairs (n : nat) x y :
  (x, y) ∈ all_pairs n ↔ 0 ≤ x < Z.of_nat n ∧ 0 ≤ y < Z.of_nat n ∧ x ≠ y.
Proof.
  unfold all_pairs. rewrite list_elem_of_bind. split.
  - intros (x' & Hp & Hx'). apply elem_of_pairs_row in Hp as (Hx & Hy & Hne).
    simpl in *. subst x'. apply elem_of_seqZ in Hx'. apply elem_of_seqZ in Hy. lia.
  - intros (Hx & Hy & Hne). exists x. split; [|apply elem_of_seqZ; lia].
    apply elem_of_pairs_row. simpl. rewrite elem_of_seqZ. split; [done|]. split; [lia|done].
Qed.

Lemma NoDup_pairs_row (x : Z) (l : list Z) :
  NoDup l → NoDup (l ≫= λ y, if decide (x ≠ y) then [(x, y)] else []).
Proof.
  intros Hl. apply NoDup_bind; [| |done].
  - intros y1 y2 p _ _ H1 H2.
    destruct (decide (x ≠ y1)); [|by apply elem_of_nil in H1].
    destruct (decide (x ≠ y2)); [|by apply elem_of_nil in H2].
    apply list_elem_of_singleton in H1. apply list_elem_of_singleton in H2. congruence.
  - intros y _. destruct (decide (x ≠ y)); [apply NoDup_singleton|apply NoDup_nil_2].
Qed.

Lemma NoDup_all_pairs (n : nat) : NoDup (all_pairs n).
Proof.
  unfold all_pairs. apply NoDup_bind; [| |apply NoDup_seqZ].
  - intros x1 x2 p _ _ H1 H2.
    apply elem_of_pairs_row in H1 as (H1 & _). apply elem_of_pairs_row in H2 as (H2 & _).
    congruence.
  - intros x _. apply NoDup_pairs_row, NoDup_seqZ.
Qed.

Lemma length_pairs_row_notin (x : Z) (l : list Z) :
  x ∉ l → length (l ≫= λ y, if decide (x ≠ y) then [(x, y)] else []) = length l.
Proof.
  induction l as [|y l IH]; [done|]. intros Hx. apply not_elem_of_cons in Hx as [Hne Hx].
  rewrite bind_cons, length_app, IH by done. by rewrite decide_True.
Qed.

Lemma length_pairs_row_in (x : Z) (l : list Z) :
  NoDup l → x ∈ l →
  S (length (l ≫= λ y, if decide (x ≠ y) then [(x, y)] else [])) = length l.
Proof.
  induction 1 as [|y l Hy Hl IH]; [by intros ?%elem_of_nil|].
  intros Hx. rewrite bind_cons, length_app. destruct (decide (x = y)) as [->|Hne].
  - rewrite decide_False by (intros ?; done). simpl.
    by rewrite length_pairs_row_notin.
  - rewrite decide_True by done. simpl. f_equal. apply IH.
    apply elem_of_cons in Hx as [?|?]; done.
Qed.

Lemma length_all_pairs (n : nat) :
  Z.of_nat (length (all_pairs n)) = Z.of_nat n * (Z.of_nat n - 1).
Proof.
  unfold all_pairs.
  assert (∀ l' : list Z, (∀ x, x ∈ l' → x ∈ seqZ 0 (Z.of_nat n)) →
    Z.of_nat (length (l' ≫= λ x, seqZ 0 (Z.of_nat n) ≫=
                        λ y, if decide (x ≠ y) then [(x, y)] else [])) =
    Z.of_nat (length l') * (Z.of_nat n - 1)) as Hrows.
  { induction l' as [|x l' IH]; intros Hsub; [simpl; lia|].
    rewrite bind_cons, length_app, Nat2Z.inj_add, IH
      by (intros y Hy; apply Hsub; by apply list_elem_of_further).
    pose proof (length_pairs_row_in x (seqZ 0 (Z.of_nat n)) (NoDup_seqZ _ _)
                  (Hsub x (list_elem_of_here _ _))) as Hrow.
    rewrite length_seqZ in Hrow. simpl length. lia. }
  rewrite Hrows by done. rewrite length_seqZ. lia.
Qed.

Lemma size_all_pairs (n : nat) :
  Z.of_nat (size (list_to_set (all_pairs n) : gset (Z * Z))) =
  Z.of_nat n * (Z.of_nat n - 1).
Proof.
  rewrite size_list_to_set by apply NoDup_all_pairs. apply length_all_pairs.
Qed.

End AllPairs.

Ltac unfold_MR :=
  unfold mbind, MR_bind, mret, MR_ret, bindR, retR, liftM in *.

Section RandomGraph.
Context {R : Type}.
Implicit Types (g : Graph R) (s : gset (Z * Z)).

Lemma for_each_R_inv {X St} (I : nat → St → Graph R → Prop) (l : list X)
    (body : X → St → MR (R:=R) St) :
  ∀ k0 st g,
  I k0 st g →
  (∀ k x st g, l !! k = Some x → I (k0 + k)%nat st g →
     ∃ st' g', body x st g = (inr (Ok st'), g') ∧ I (S (k0 + k)) st' g') →
  ∃ st' g', for_each_R l body st g = (inr (Ok st'), g') ∧ I (k0 + length l)%nat st' g'.
Proof.
  induction l as [|x l IH]; intros k0 st g HI Hbody.
  { exists st, g. simpl. by rewrite Nat.add_0_r. }
  destruct (Hbody 0%nat x st g eq_refl) as (st1 & g1 & Hx & HI1).
  { by rewrite Nat.add_0_r. }
  rewrite Nat.add_0_r in HI1.
  destruct (IH (S k0) st1 g1 HI1) as (st' & g' & Hrun & HI').
  { intros k y st2 g2 Hy HI2.
    replace (S k0 + k)%nat with (k0 + S k)%nat in * by lia.
    by apply (Hbody (S k) y st2 g2 Hy). }
  exists st', g'. cbn [for_each_R]. unfold_MR. rewrite Hx.
  split; [exact Hrun|]. simpl length.
  by replace (k0 + S (length l))%nat with (S k0 + length l)%nat by lia.
Qed.

Lemma choice_ok {X} (l : list X) (draw : nat) g :
  l ≠ [] → ∃ x, choice l draw g = (inr (Ok x), g) ∧ x ∈ l.
Proof.
  intros Hl. unfold choice.
  destruct (lookup_lt_is_Some_2 l (draw `mod` length l)%nat) as [x Hx].
  { apply Nat.mod_upper_bound. by destruct l. }
  exists x. rewrite Hx. split; [done|]. by eapply list_elem_of_lookup_2.
Qed.

Lemma randint_ok (a b : Z) (draw : nat) g :
  a ≤ b → ∃ z, randint a b draw g = (inr (Ok z), g) ∧ a ≤ z ≤ b ∧
               z = a + Z.of_nat draw `mod` (b - a + 1).
Proof.
  intros Hab. unfold randint. destruct (Z.ltb_spec b a); [lia|].
  eexists. split; [done|]. split; [|done].
  pose proof (Z.mod_pos_bound (Z.of_nat draw) (b - a + 1)). lia.
Qed.

Lemma randomize_inv_init (n : nat) :
  randomize_inv n 0 (list_to_set (all_pairs n)) (Graph_init (R:=R) n).
Proof.
  split; [done|]. split; [done|]. split; [|split; [|split; [|split; [|split]]]].
  - intros x y Hxy. apply elem_of_list_to_set, elem_of_all_pairs in Hxy.
    split; [lia|]. split; [lia|]. split; [lia|].
    apply elem_of_list_to_set, elem_of_all_pairs. lia.
  - rewrite size_all_pairs. lia.
  - intros x y _. unfold weight_of. rewrite Graph_init_lookup.
    by case_bool_decide.
  - intros u. rewrite Graph_init_lookup. case_bool_decide; split.
    + done.
    + by eexists.
    + by intros [? ?].
    + done.
  - intros u v w. unfold weight_of. rewrite Graph_init_lookup.
    by case_bool_decide.
  - split; [done|]. apply Graph_init_counter.
Qed.

Lemma randomize_step (n : nat) (rnd : nat → nat) (k : nat) s g :
  randomize_inv n k s g →
  2 * Z.of_nat k + 2 ≤ Z.of_nat n * (Z.of_nat n - 1) →
  ∃ s' g',
    ((e ← choice (elements s) (rnd (Z.to_nat (2 * Z.of_nat k + 1)));
      s1 ← set_remove e s;
      s2 ← set_remove (e.2, e.1) s1;
      weight ← randint 1 100 (rnd (Z.to_nat (2 * Z.of_nat k + 2)));
      liftM (add_edge e.1 e.2 weight);;
      mret s2) : MR (gset (Z * Z))) g = (inr (Ok s'), g') ∧
    randomize_inv n (S k) s' g'.
Proof.
  intros (HN & Hreset & Hset & Hsize & Hfresh & Hkeys & Hedges & HE & Hcount) Hk.
  destruct (choice_ok (elements s) (rnd (Z.to_nat (2 * Z.of_nat k + 1))) g)
    as ([u v] & Hchoice & He).
  { intros Hnil. assert (size s = 0%nat) as Hz by (unfold size, set_size; simpl; by rewrite Hnil).
    lia. }
  apply elem_of_elements in He.
  destruct (Hset u v He) as (Hu & Hv & Huv & Hvu).
  destruct (randint_ok 1 100 (rnd (Z.to_nat (2 * Z.of_nat k + 2))) g)
    as (w & Hw & Hwr & _); [lia|].
  destruct (proj2 (Hkeys u) Hu) as [row Hrow].
  assert (row !! v = None) as Hrowv.
  { pose proof (Hfresh u v He) as Hf. unfold weight_of in Hf. by rewrite Hrow in Hf. }
  assert ((v, u) ∈ s ∖ {[(u, v)]}) as Hvu1.
  { apply elem_of_difference. split; [done|].
    intros Heq%elem_of_singleton. congruence. }
  eexists _, _. unfold_MR. rewrite Hchoice. unfold set_remove. cbn [fst snd].
  rewrite decide_True by done. rewrite decide_True by done.
  rewrite Hw. rewrite add_edge_eq, Hrow.
  split; [done|].
  split; [done|]. split; [done|]. split; [|split; [|split; [|split; [|split]]]].
  - intros x y Hxy.
    apply elem_of_difference in Hxy as [Hxy Hne2].
    apply elem_of_difference in Hxy as [Hxy Hne1].
    rewrite elem_of_singleton in Hne1, Hne2.
    destruct (Hset x y Hxy) as (Hx & Hy & Hxy' & Hyx).
    split; [done|]. split; [done|]. split; [done|].
    apply elem_of_difference. split.
    + apply elem_of_difference. split; [done|].
      rewrite elem_of_singleton. intros [= -> ->]. done.
    + rewrite elem_of_singleton. intros [= -> ->]. done.
  - rewrite !size_difference.
    + rewrite !size_singleton.
      assert (2 ≤ size s)%nat; [|lia].
      pose proof (size_difference s {[(u, v)]}) as Hd.
      rewrite size_singleton in Hd.
      assert (size (s ∖ {[(u, v)]}) ≠ 0)%nat as Hpos.
      { intros Hz%size_empty_iff. apply (Hz (v, u)) in Hvu1.
        by apply not_elem_of_empty in Hvu1. }
      rewrite Hd in Hpos; [lia|]. by apply singleton_subseteq_l.
    + by apply singleton_subseteq_l.
    + by apply singleton_subseteq_l.
  - intros x y Hxy.
    apply elem_of_difference in Hxy as [Hxy _].
    apply elem_of_difference in Hxy as [Hxy Hne1].
    rewrite elem_of_singleton in Hne1. simpl.
    rewrite (weight_of_insert _ _ _ _ row) by done.
    rewrite bool_decide_false by (intros [-> ->]; done). by apply Hfresh.
  - intros a. simpl. destruct (decide (a = u)) as [->|Hne].
    + rewrite lookup_insert_eq. split; [done|by eexists].
    + rewrite lookup_insert_ne by done. apply Hkeys.
  - intros a b c. simpl. rewrite !(weight_of_insert _ _ _ _ row) by done.
    case_bool_decide as Hab.
    + destruct Hab as [-> ->]. intros [= <-].
      split; [done|]. split; [done|]. split; [done|]. split; [done|].
      rewrite bool_decide_false by (intros [-> _]; done). by apply Hfresh.
    + intros Hc. destruct (Hedges a b c Hc) as (Ha & Hb & Hne & Hwc & Hba).
      split; [done|]. split; [done|]. split; [done|]. split; [done|].
      case_bool_decide as Hba'; [|done].
      destruct Hba' as [-> ->]. rewrite (Hfresh v u Hvu) in Hc. done.
  - simpl. split; [lia|].
    pose proof (add_edge_fresh_counter u v w g row Hrow Hrowv Hcount) as Hc.
    rewrite add_edge_eq, Hrow in Hc. simpl in Hc. exact Hc.
Qed.

(** The random constructor on at least two vertices: what it returns. *)
Lemma randomize_spec (n : nat) (rnd : nat → nat) :
  (2 ≤ n)%nat →
  ∃ s g, Graph_new n (Some rnd) = (inr (Ok tt), g) ∧
         randomize_inv n
           (Z.to_nat (1 + Z.of_nat (rnd 0%nat)
                          `mod` ((Z.of_nat n * (Z.of_nat n - 1)) `div` 2))) s g.
Proof.
  intros Hn. unfold Graph_new, randomize. unfold_MR. unfold get. cbn [N Graph_init].
  pose proof (size_all_pairs n) as Hsize. rewrite Hsize.
  rewrite Z.eqb_refl. cbn [negb].
  assert (2 ≤ Z.of_nat n * (Z.of_nat n - 1)) as Hpairs by nia.
  assert (1 ≤ (Z.of_nat n * (Z.of_nat n - 1)) `div` 2) as Hhalf.
  { apply Z.div_le_lower_bound; lia. }
  destruct (randint_ok 1 ((Z.of_nat n * (Z.of_nat n - 1)) `div` 2) (rnd 0%nat)
              (Graph_init (R:=R) n)) as (num & Hnum & Hrange & Heq); [done|].
  rewrite Hnum.
  replace ((Z.of_nat n * (Z.of_nat n - 1)) `div` 2 - 1 + 1)
    with ((Z.of_nat n * (Z.of_nat n - 1)) `div` 2) in Heq by lia.
  rewrite <- Heq.
  assert (2 * num ≤ Z.of_nat n * (Z.of_nat n - 1)) as Hbound.
  { pose proof (Z.mul_div_le (Z.of_nat n * (Z.of_nat n - 1)) 2). lia. }
  match goal with
  | |- context [for_each_R (seqZ 0 num) ?body ?st ?g0] =>
      destruct (for_each_R_inv (randomize_inv n) (seqZ 0 num) body 0%nat st g0)
        as (s' & g' & Hrun & Hinv)
  end.
  { apply randomize_inv_init. }
  { intros k x st g Hx Hinv. apply lookup_seqZ in Hx as [Hx Hk].
    assert (x = Z.of_nat k) as -> by lia. simpl in Hinv.
    apply (randomize_step n rnd k st g Hinv). lia. }
  rewrite Hrun. exists s', g'. split; [done|].
  by rewrite length_seqZ in Hinv.
Qed.

Lemma randomize_inv_indexable n k s g :
  randomize_inv n k s g →
  indexable g = true ∧ all_weights (λ w, 0 <=? w) g = true.
Proof.
  intros (HN & _ & _ & _ & _ & _ & Hedges & _).
  assert (∀ u row v w, (u, row) ∈ map_to_list (adj g) → (v, w) ∈ map_to_list row →
            weight_of (adj g) u v = Some w) as Hw.
  { intros u row v w Hu%elem_of_map_to_list Hv%elem_of_map_to_list.
    unfold weight_of. by rewrite Hu. }
  split.
  - unfold indexable. apply forallb_forall. intros [u row] Hu%list_elem_of_In.
    apply forallb_forall. intros [v w] Hv%list_elem_of_In.
    destruct (Hedges u v w (Hw u row v w Hu Hv)) as (Hur & Hvr & _).
    unfold in_range. rewrite HN.
    apply andb_true_iff; split; apply andb_true_iff; split;
      (apply Z.leb_le || apply Z.ltb_lt); lia.
  - unfold all_weights. apply forallb_forall. intros [u row] Hu%list_elem_of_In.
    apply forallb_forall. intros [v w] Hv%list_elem_of_In.
    destruct (Hedges u v w (Hw u row v w Hu Hv)) as (_ & _ & _ & Hwr & _).
    simpl. apply Z.leb_le. lia.
Qed.

(** X17: on at least two vertices the random constructor returns a graph
    with a reset tracker, whose rows are those of the vertices 0 to N-1, and
    with [E] edges for a number [E] that the first random number picks
    between 1 and N(N-1)/2; [E] is the number of stored entries. *)
Theorem random_graph_counts (n : nat) (rnd : nat → nat) :
  (2 ≤ n)%nat →
  ∃ g, Graph_new n (Some rnd) = (inr (Ok tt), g) ∧
       N g = n ∧ tracker_reset g ∧
       (∀ u, is_Some (adj g !! u) ↔ 0 ≤ u < Z.of_nat n) ∧
       E g = 1 + Z.of_nat (rnd 0%nat) `mod` ((Z.of_nat n * (Z.of_nat n - 1)) `div` 2) ∧
       1 ≤ E g ≤ (Z.of_nat n * (Z.of_nat n - 1)) `div` 2 ∧
       E g = entry_count g.
Proof.
  intros Hn. destruct (randomize_spec n rnd Hn)
    as (s & g & Hnew & HN & Hreset & _ & _ & _ & Hkeys & _ & HE & Hcount).
  exists g. split; [done|]. split; [done|]. split; [done|]. split; [done|].
  assert (2 ≤ Z.of_nat n * (Z.of_nat n - 1)) as Hpairs by nia.
  assert (1 ≤ (Z.of_nat n * (Z.of_nat n - 1)) `div` 2) as Hhalf.
  { apply Z.div_le_lower_bound; lia. }
  pose proof (Z.mod_pos_bound (Z.of_nat (rnd 0%nat))
                ((Z.of_nat n * (Z.of_nat n - 1)) `div` 2)) as Hmod.
  rewrite HE. split; [lia|]. split; [lia|]. by rewrite <- HE.
Qed.

(** X18: every edge that the random constructor stores joins two different
    vertices of the graph, has a weight between 1 and 100, and is stored in
    one direction only. *)
Theorem random_graph_edges (n : nat) (rnd : nat → nat) :
  (2 ≤ n)%nat →
  ∃ g, Graph_new n (Some rnd) = (inr (Ok tt), g) ∧
       ∀ u v w, weight_of (adj g) u v = Some w →
         0 ≤ u < Z.of_nat n ∧ 0 ≤ v < Z.of_nat n ∧ u ≠ v ∧ 1 ≤ w ≤ 100 ∧
         weight_of (adj g) v u = None.
Proof.
  intros Hn. destruct (randomize_spec n rnd Hn)
    as (s & g & Hnew & _ & _ & _ & _ & _ & _ & Hedges & _).
  by exists g.
Qed.

(** X19: on fewer than two vertices the random constructor raises
    [ValueError]: there is no pair of vertices, and the number of edges is
    drawn from an empty range. *)
Theorem random_graph_too_small (n : nat) (rnd : nat → nat) :
  (n < 2)%nat → Graph_new (R:=R) n (Some rnd) = (inl ValueError, Graph_init n).
Proof. intros Hn. destruct n as [|[|n]]; [reflexivity|reflexivity|lia]. Qed.

End RandomGraph.

Section RandomOptimum.
Context {R : Type} `{FloatOps R}.
Implicit Types g : Graph R.

Lemma length_one_hot n u : length (one_hot n u) = n.
Proof. unfold one_hot. by rewrite length_insert, length_replicate. Qed.

Lemma is_bits_insert_1 (l : list ascii) i :
  is_bits l = true → is_bits (<[i := "1"%char]> l) = true.
Proof.
  revert i. induction l as [|c l IH]; intros i; [done|].
  intros [Hc Hl]%andb_true_iff. fold (is_bits l) in Hl.
  destruct i as [|i].
  - exact Hl.
  - change (is_bit c && is_bits (<[i := "1"%char]> l) = true).
    apply andb_true_iff. split; [done|]. by apply IH.
Qed.

Lemma is_bits_one_hot n u : is_bits (one_hot n u) = true.
Proof. apply is_bits_insert_1, is_bits_replicate_0. Qed.

Lemma crosses_one_hot (n : nat) u v :
  0 ≤ u < Z.of_nat n → 0 ≤ v < Z.of_nat n → u ≠ v →
  crosses (one_hot n u) u v = true.
Proof.
  intros Hu Hv Hne. unfold crosses, getitem. rewrite length_one_hot.
  destruct (Z.ltb_spec u 0); [lia|]. destruct (Z.ltb_spec v 0); [lia|].
  replace ((0 <=? u) && (u <? Z.of_nat n)) with true
    by (symmetry; apply andb_true_iff; split; [apply Z.leb_le|apply Z.ltb_lt]; lia).
  replace ((0 <=? v) && (v <? Z.of_nat n)) with true
    by (symmetry; apply andb_true_iff; split; [apply Z.leb_le|apply Z.ltb_lt]; lia).
  unfold one_hot.
  rewrite list_lookup_insert_eq by (rewrite length_replicate; lia).
  rewrite list_lookup_insert_ne by lia.
  rewrite lookup_replicate_2 by lia. done.
Qed.

(** X20: a random graph on 2 to 1024 vertices can be scored, and its optimum
    is at least 1: [get_score] accepts every sequence of length [N], and
    [optimal_score] returns a score of 1 or more, so that the ratios
    [currentScore / opt] of the benchmarks never divide by zero. *)
Theorem random_graph_optimum (n : nat) (rnd : nat → nat) :
  (2 ≤ n ≤ 1024)%nat →
  ∃ g best best_val,
    Graph_new n (Some rnd) = (inr (Ok tt), g) ∧
    (∀ b : list ascii, length b = n → ∃ sc, get_score b g = (Ok sc, g) ∧ 0 ≤ sc) ∧
    optimal_score g = (Ok (best, best_val), g) ∧ 1 ≤ best.
Proof.
  intros Hn. destruct (randomize_spec (R:=R) n rnd) as (s & g & Hnew & Hinv); [lia|].
  destruct (randomize_inv_indexable _ _ _ _ Hinv) as [Hg Hw].
  destruct Hinv as (HN & _ & _ & _ & _ & _ & Hedges & HE & Hcount).
  assert (∀ e, e ∈ edge_list (adj g) → 0 ≤ e.2) as Hpos.
  { intros [[u v] w] (row & Hu & Hv)%edge_list_rows. simpl.
    pose proof (all_weights_edge _ _ _ _ _ _ Hw Hu Hv) as H0.
    by apply Z.leb_le in H0. }
  assert (∀ b : list ascii, Forall (λ y, 0 ≤ y) (cut_weight b <$> edge_list (adj g)))
    as Hterms.
  { intros b. apply Forall_fmap, Forall_forall. intros e He. simpl.
    unfold cut_weight. specialize (Hpos e He). by destruct (crosses _ _ _). }
  destruct (optimal_score_loop g) as (best & best_val & Hopt & Hub & _);
    [lia|done|].
  exists g, best, best_val. split; [done|]. split; [|split; [done|]].
  - intros b Hlen. exists (sum_Z (cut_weight b <$> edge_list (adj g))).
    rewrite get_score_eq, cut_result_sum by (done || congruence).
    split; [done|]. clear -Hterms. specialize (Hterms b).
    induction Hterms as [|y l Hy _ IH]; [done|]. rewrite sum_Z_cons. lia.
  - assert (edge_list (adj g) ≠ []) as Hne.
    { intros Hnil. pose proof (length_edge_list g) as Hlen.
      rewrite Hnil in Hlen. simpl in Hlen.
      assert (1 ≤ E g); [|lia]. rewrite HE.
      pose proof (Z.mod_pos_bound (Z.of_nat (rnd 0%nat))
                    ((Z.of_nat n * (Z.of_nat n - 1)) `div` 2)) as Hmod.
      assert (1 ≤ (Z.of_nat n * (Z.of_nat n - 1)) `div` 2).
      { apply Z.div_le_lower_bound; [lia|]. nia. }
      lia. }
    destruct (edge_list (adj g)) as [|[[u v] w] l] eqn:Hl; [done|].
    assert ((u, v, w) ∈ edge_list (adj g)) as Hin
      by (rewrite Hl; apply list_elem_of_here).
    pose proof Hin as Hwt. apply elem_of_edge_list in Hwt.
    destruct (Hedges u v w Hwt) as (Hu & Hv & Huv & Hwr & _).
    transitivity (score_of g (one_hot n u)).
    + rewrite (score_of_eq _ _ _ (cut_result_sum g (one_hot n u) Hg
                 (eq_trans (length_one_hot n u) (eq_sym HN)))).
      transitivity (cut_weight (one_hot n u) (u, v, w)).
      * unfold cut_weight. simpl. rewrite crosses_one_hot by done. lia.
      * rewrite Hl. apply sum_Z_elem; [apply Hterms|].
        apply list_elem_of_fmap. exists (u, v, w). split; [done|].
        apply list_elem_of_here.
    + apply Hub; [by rewrite length_one_hot|apply is_bits_one_hot].
Qed.

End RandomOptimum.

Lemma random_graph_counts_witness :
  (2 ≤ 5)%nat ∧
  ∃ g, Graph_new (R:=Q) 5 (Some draws) = (inr (Ok tt), g) ∧
       N g = 5%nat ∧ tracker_reset g ∧
       (∀ u, is_Some (adj g !! u) ↔ 0 ≤ u < Z.of_nat 5) ∧
       E g = 1 + Z.of_nat (draws 0%nat) `mod` ((Z.of_nat 5 * (Z.of_nat 5 - 1)) `div` 2) ∧
       1 ≤ E g ≤ (Z.of_nat 5 * (Z.of_nat 5 - 1)) `div` 2 ∧
       E g = entry_count g.
Proof. split; [lia|]. apply (random_graph_counts 5 draws). lia. Defined.

Lemma random_graph_edges_witness :
  (2 ≤ 5)%nat ∧
  get_edges (Graph_new (R:=Q) 5 (Some draws)).2 =
    (Ok [(3, 4, 18); (4, 1, 60); (2, 0, 32); (1, 3, 46)],
     (Graph_new (R:=Q) 5 (Some draws)).2) ∧
  ∃ g, Graph_new (R:=Q) 5 (Some draws) = (inr (Ok tt), g) ∧
       ∀ u v w, weight_of (adj g) u v = Some w →
         0 ≤ u < Z.of_nat 5 ∧ 0 ≤ v < Z.of_nat 5 ∧ u ≠ v ∧ 1 ≤ w ≤ 100 ∧
         weight_of (adj g) v u = None.
Proof.
  split; [lia|]. split; [vm_compute; reflexivity|].
  apply (random_graph_edges 5 draws). lia.
Defined.

Lemma random_graph_too_small_witness :
  (1 < 2)%nat ∧ Graph_new (R:=Q) 1 (Some draws) = (inl ValueError, Graph_init 1).
Proof. split; [lia|]. apply (random_graph_too_small 1 draws). lia. Defined.

Lemma random_graph_optimum_witness :
  (2 ≤ 5 ≤ 1024)%nat ∧
  ∃ g best best_val,
    Graph_new (R:=Q) 5 (Some draws) = (inr (Ok tt), g) ∧
    (∀ b : list ascii, length b = 5%nat → ∃ sc, get_score b g = (Ok sc, g) ∧ 0 ≤ sc) ∧
    optimal_score g = (Ok (best, best_val), g) ∧ 1 ≤ best.
Proof. split; [lia|]. apply (random_graph_optimum 5 draws). lia. Defined.

(** ** The benchmark and the evaluations do not interfere *)

Section Independence.
Context {R : Type} `{FloatOps R}.
Implicit Types g : Graph R.

Lemma optimal_score_result g :
  optimal_score g = (optimum_result (N g) (adj g), g).
Proof.
  unfold optimal_score, optimum_result. unfold_M.
  destruct (ceil_half_pow2 (N g)) as [half|]; [|done].
  apply for_each_pure. intros i [best best_val] _.
  rewrite get_score_eq. simpl.
  destruct (cut_result _ _ _) as [sc|]; [|done].
  destruct (best <? sc); [done|]. by destruct (sc =? best).
Qed.

(** X21: whatever [update_score], [add_run] and [get_expectation] calls were
    made in between, [optimal_score] and [get_score] return, or raise, the
    same as before: the benchmark depends on the topology alone. *)
Theorem calls_keep_benchmark {A} `{EqDecision A} cs g (b : list A) :
  (optimal_score (after_calls cs g)).1 = (optimal_score g).1 ∧
  (get_score b (after_calls cs g)).1 = (get_score b g).1.
Proof.
  destruct (after_calls_extends cs g) as (HN & _ & Hadj & _).
  rewrite !optimal_score_result, !get_score_eq. simpl.
  by rewrite HN, Hadj.
Qed.

End Independence.
